(** * Outbound message queue of the Channel Access client (comQueSend) and
      local network interface discovery (osdNetIfConf)

    A shallow embedding of [src/ca/comQueSend.h] and of
    [modules/libcom/src/osi/os/osdNetIfConf.c], with the properties that the
    design description states about them.

    Conventions.
    - C [unsigned] is 32 bits wide; values that arithmetic can wrap are kept
      in [Z] and reduced with [u32].  Element counts and buffer offsets, which
      the code only compares and subtracts below their bound, are [nat].
    - A (pointer, count) pair [pVal, nElem] is a list; [nElem] is its length
      and [&pVal[k]] is [skipn k pVal].
    - The chain [tsDLList<comBuf>] is a list in insertion order, an iterator
      [tsDLIter<comBuf>] is [option nat]: [None] is the invalid iterator,
      [Some i] designates the buffer at position [i]. *)

From Stdlib Require Import String ZArith Arith Bool Lia List.
Import ListNotations.

(** ** Machine integers *)

Definition UINT_MAX : Z := 4294967295.

Definition u32 (x : Z) : Z := x mod 4294967296.

(** ** Lists: the last node of a chain *)

(** [splitLast l] is the chain without its last node, and that node;
    [None] on the empty chain ([tsDLList::last] returning null). *)
Fixpoint splitLast {A : Type} (l : list A) : option (list A * A) :=
  match l with
  | [] => None
  | x :: l' =>
      match splitLast l' with
      | None => Some ([], x)
      | Some (front, y) => Some (x :: front, y)
      end
  end.

(** [chunks fuel e l] cuts [l] into consecutive pieces of [e] elements, the
    last one possibly shorter. *)
Fixpoint chunks {A : Type} (fuel e : nat) (l : list A) : list (list A) :=
  match fuel with
  | O => []
  | S fuel' =>
      match l with
      | [] => []
      | _ :: _ =>
          let n := Nat.min (length l) e in
          firstn n l :: chunks fuel' e (skipn n l)
      end
  end.

(** Rounded-up quotient. *)
Definition ceil_div (a b : nat) : nat := (a + b - 1) / b.

(** ** Wire formats

    Modelled from the spec: the [WireSet] overloads belong to [comBuf.h],
    which is outside the files embedded here.  The queue's [push] templates
    are instantiated at the wire types; what they use of a type [T] is its
    size and its encoding, which section 4.3 gives as network byte order. *)
Module Wire.

Definition byte := Z.

Record format (T : Type) : Type := {
  sizeOf : nat;
  WireSet : T -> list byte
}.
Arguments sizeOf {T} _.
Arguments WireSet {T} _ _.

(** A format is lawful when every value occupies exactly [sizeOf] bytes. *)
Definition lawful {T} (W : format T) : Prop :=
  0 < sizeOf W /\ forall v, length (WireSet W v) = sizeOf W.

(** Byte [k] (0 = least significant) of [x]. *)
Definition octet (x : Z) (k : Z) : byte :=
  Z.land (Z.shiftr x (8 * k)) 255.

Definition ca_uint16_t := Z.
Definition ca_uint32_t := Z.
(** A single-precision value is carried as its IEEE-754 bit pattern. *)
Definition ca_float32_t := Z.
Definition char := Z.

Definition uint16 : format ca_uint16_t :=
  {| sizeOf := 2; WireSet := fun v => [octet v 1; octet v 0] |}.

Definition uint32 : format ca_uint32_t :=
  {| sizeOf := 4;
     WireSet := fun v => [octet v 3; octet v 2; octet v 1; octet v 0] |}.

Definition float32 : format ca_float32_t :=
  {| sizeOf := 4;
     WireSet := fun v => [octet v 3; octet v 2; octet v 1; octet v 0] |}.

Definition chars : format char :=
  {| sizeOf := 1; WireSet := fun c => [octet c 0] |}.

End Wire.

(** ** The fixed-capacity buffer *)
Module comBuf.

(** Modelled from the spec: [comBuf.h] is outside the files embedded here.
    A fixed buffer has a capacity shared by all instances, a write offset
    and its storage (section 3); rolling back "to the last committed write
    offset" (section 4.2) needs that offset too.  The storage is kept as
    the bytes written so far, so the write offset is their number. *)
Record t : Type := {
  commitIndex : nat;
  buf : list Wire.byte
}.

Definition nextWriteIndex (b : t) : nat := length (buf b).

(** A buffer as the memory manager hands it out. *)
Definition fresh : t := {| commitIndex := 0; buf := [] |}.

Section Capacity.

(** [comBuf::capacityBytes ()], a compile-time constant of [comBuf.h]. *)
Variable capacityBytes : nat.

(** Modelled from the spec: [push (single_value) -> accepted] (section
    4.1): the scalar is appended when it fits whole, otherwise the buffer
    does not advance. *)
Definition push {T} (W : Wire.format T) (val : T) (b : t) : bool * t :=
  if Wire.sizeOf W <=? capacityBytes - nextWriteIndex b
  then (true, {| commitIndex := commitIndex b;
                 buf := buf b ++ Wire.WireSet W val |})
  else (false, b).

(** Modelled from the spec: [push (array) -> accepted_count] (section
    4.1): as many whole elements as the remaining capacity allows. *)
Definition pushN {T} (W : Wire.format T) (pVal : list T) (b : t)
  : nat * t :=
  let available := capacityBytes - nextWriteIndex b in
  let nElem := Nat.min (length pVal) (available / Wire.sizeOf W) in
  (nElem, {| commitIndex := commitIndex b;
             buf := buf b ++ flat_map (Wire.WireSet W) (firstn nElem pVal) |}).

End Capacity.

(** Bytes written since the last commit. *)
Definition uncommittedBytes (b : t) : nat := nextWriteIndex b - commitIndex b.

(** Modelled from the spec: roll the write offset back to the last
    committed one (section 4.2, clearUncommitted). *)
Definition clearUncommittedIncomming (b : t) : t :=
  {| commitIndex := commitIndex b; buf := firstn (commitIndex b) (buf b) |}.

(** Modelled from the spec: make what was written permanent (section 4.2,
    commitMsg "only changes the rollback boundary"). *)
Definition commitIncomming (b : t) : t :=
  {| commitIndex := nextWriteIndex b; buf := buf b |}.

(** No byte of the buffer awaits a commit, and it is not empty. *)
Definition settled (b : t) : Prop :=
  uncommittedBytes b = 0 /\ 0 < nextWriteIndex b.

End comBuf.

(** ** The send queue *)
Module comQueSend.

Record t : Type := {
  bufs : list comBuf.t;
  pFirstUncommited : option nat;
  nBytesPending : Z
}.

Definition with_bufs (q : t) (l : list comBuf.t) : t :=
  {| bufs := l;
     pFirstUncommited := pFirstUncommited q;
     nBytesPending := nBytesPending q |}.

(** [tsDLList::lastIter ()]: invalid on the empty chain. *)
Definition lastIter (l : list comBuf.t) : option nat :=
  match l with
  | [] => None
  | _ :: _ => Some (length l - 1)
  end.

(** [tsDLIter::valid ()]. *)
Definition valid (it : option nat) : bool :=
  match it with Some _ => true | None => false end.

(** Sum of the written offsets of the buffers of a chain. *)
Definition chainBytes (l : list comBuf.t) : Z :=
  Z.of_nat (list_sum (map comBuf.nextWriteIndex l)).

(** The bytes of a chain in transmission order. *)
Definition chainData (l : list comBuf.t) : list Wire.byte :=
  concat (map comBuf.buf l).

(** The queue with no buffer, as [clear ()] leaves it (section 4.2). *)
Definition empty : t :=
  {| bufs := []; pFirstUncommited := None; nBytesPending := 0 |}.

(** [comQueSend::pushComBuf] *)
Definition pushComBuf (cb : comBuf.t) (q : t) : t :=
  let l := bufs q ++ [cb] in
  {| bufs := l;
     pFirstUncommited :=
       if negb (valid (pFirstUncommited q)) then lastIter l
       else pFirstUncommited q;
     nBytesPending := nBytesPending q |}.

(** [comQueSend::occupiedBytes] *)
Definition occupiedBytes (q : t) : Z := nBytesPending q.

Section Capacity.

Variable capacityBytes : nat.

(** [comQueSend::push ( const T & val )].  [None] is the failed
    assertion on the freshly allocated buffer. *)
Definition push {T} (W : Wire.format T) (val : T) (q : t) : option t :=
  let onFresh :=
    let '(accepted, pComBuf) := comBuf.push capacityBytes W val comBuf.fresh in
    if accepted then Some (pushComBuf pComBuf q) else None in
  match splitLast (bufs q) with
  | Some (front, pComBuf) =>
      let '(accepted, pComBuf') := comBuf.push capacityBytes W val pComBuf in
      if accepted then Some (with_bufs q (front ++ [pComBuf']))
      else onFresh
  | None => onFresh
  end.

(** The [while ( nElem > nCopied )] loop of
    [comQueSend::push ( const T *pVal, const unsigned nElem )].
    Every turn allocates one buffer; [None] when [fuel] turns do not
    finish the loop. *)
Fixpoint pushLoop {T} (fuel : nat) (W : Wire.format T) (pVal : list T)
    (nCopied : nat) (q : t) : option t :=
  if nCopied <? length pVal then
    match fuel with
    | O => None
    | S fuel' =>
        let '(nNew, pComBuf) :=
          comBuf.pushN capacityBytes W (skipn nCopied pVal) comBuf.fresh in
        pushLoop fuel' W pVal (nCopied + nNew) (pushComBuf pComBuf q)
    end
  else Some q.

(** [comQueSend::push ( const T *pVal, const unsigned nElem )].
    The loop is given one turn per element still to copy: a turn that
    copies nothing is followed by the same turn again, so the loop ends
    within that many turns or never; [None] is the loop that never
    ends. *)
Definition pushN {T} (W : Wire.format T) (pVal : list T) (q : t)
  : option t :=
  let nElem := length pVal in
  let '(nCopied, q1) :=
    match splitLast (bufs q) with
    | Some (front, pLastBuf) =>
        let '(n, pLastBuf') := comBuf.pushN capacityBytes W pVal pLastBuf in
        (n, with_bufs q (front ++ [pLastBuf']))
    | None => (0, q)
    end in
  pushLoop (nElem - nCopied) W pVal nCopied q1.

(** [comQueSend::pushUInt16], [pushUInt32], [pushFloat32], [pushString] *)
Definition pushUInt16 (value : Wire.ca_uint16_t) : t -> option t :=
  push Wire.uint16 value.

Definition pushUInt32 (value : Wire.ca_uint32_t) : t -> option t :=
  push Wire.uint32 value.

Definition pushFloat32 (value : Wire.ca_float32_t) : t -> option t :=
  push Wire.float32 value.

Definition pushString (pVal : list Wire.char) : t -> option t :=
  pushN Wire.chars pVal.

(** [comQueSend::flushBlockThreshold], [flushEarlyThreshold] *)
Definition flushBlockThreshold (q : t) (nBytesThisMsg : Z) : bool :=
  (u32 (nBytesPending q + nBytesThisMsg)
     >? u32 (16 * Z.of_nat capacityBytes))%Z.

Definition flushEarlyThreshold (q : t) (nBytesThisMsg : Z) : bool :=
  (u32 (nBytesPending q + nBytesThisMsg)
     >? u32 (4 * Z.of_nat capacityBytes))%Z.


End Capacity.

(** *** Framing *)

Definition nonEmpty (b : comBuf.t) : bool :=
  negb (comBuf.nextWriteIndex b =? 0).

(** Modelled from the spec: [clearUncommitted] is defined in
    [comQueSend.cpp], which is outside the files embedded here.  Section 4.2:
    it "drops every byte written since the last beginMsg by truncating
    buffers back to the last committed write offset, freeing buffers that
    become fully empty as a result, and decrementing the pending-byte
    counter by exactly the number of bytes discarded".  The buffers
    concerned are those from the uncommitted cursor on; no message is open
    afterwards, so the cursor ends invalid. *)
Definition clearUncommitted (q : t) : t :=
  match pFirstUncommited q with
  | None => q
  | Some i =>
      let committed := firstn i (bufs q) in
      let open := skipn i (bufs q) in
      let discarded := list_sum (map comBuf.uncommittedBytes open) in
      {| bufs := committed
                 ++ filter nonEmpty (map comBuf.clearUncommittedIncomming open);
         pFirstUncommited := None;
         nBytesPending := u32 (nBytesPending q - Z.of_nat discarded) |}
  end.

(** Modelled from the spec: [commitMsg] is defined in [comQueSend.cpp].
    Section 4.2: "the uncommitted cursor is cleared/invalidated, making all
    bytes written since the matching beginMsg permanently part of the
    pending, flushable stream.  Does not move bytes; it only changes the
    rollback boundary." *)
Definition commitMsg (q : t) : t :=
  match pFirstUncommited q with
  | None => q
  | Some i =>
      {| bufs := firstn i (bufs q)
                 ++ map comBuf.commitIncomming (skipn i (bufs q));
         pFirstUncommited := None;
         nBytesPending := nBytesPending q |}
  end.

(** Modelled from the spec: [clear] is defined in [comQueSend.cpp].
    Section 4.2: every buffer is released, the pending-byte count is reset
    to zero and the uncommitted cursor invalidated. *)
Definition clear (q : t) : t := empty.

(** [comQueSend::beginMsg] *)
Definition beginMsg (q : t) : t :=
  let q1 := if valid (pFirstUncommited q) then clearUncommitted q else q in
  {| bufs := bufs q1;
     pFirstUncommited := lastIter (bufs q1);
     nBytesPending := nBytesPending q1 |}.



(** *** Outcomes of the operations that can throw *)

Inductive exn : Type := outOfBounds | badType.

(** [Abort]: a failed assertion, a loop that does not end, or a call that
    the language leaves undefined. *)
Inductive outcome (A : Type) : Type :=
| Normal (a : A)
| Throw (e : exn)
| Abort.
Arguments Normal {A} a.
Arguments Throw {A} e.
Arguments Abort {A}.

(** A member function that may throw: the outcome and the queue as the
    call leaves it. *)
Definition M (A : Type) : Type := t -> outcome A * t.

Definition ret {A} (a : A) : M A := fun q => (Normal a, q).

Definition bind {A B} (m : M A) (k : A -> M B) : M B :=
  fun q =>
    match m q with
    | (Normal a, q') => k a q'
    | (Throw e, q') => (Throw e, q')
    | (Abort, q') => (Abort, q')
    end.

Definition throw {A} (e : exn) : M A := fun q => (Throw e, q).

Definition call (f : t -> option t) : M unit :=
  fun q =>
    match f q with
    | Some q' => (Normal tt, q')
    | None => (Abort, q)
    end.

Notation "m1 ;; m2" := (bind m1 (fun _ => m2))
  (at level 61, right associativity).

(** *** Typed payload dispatch and request composition *)

(** [comQueSend::copyFunc_t]: a copy routine takes the payload, as the raw
    bytes behind [pValue], and the element count. *)
Definition copyFunc_t : Type := list Wire.byte -> nat -> t -> option t.

(** [sizeof ( dbrCopyVector ) / sizeof ( dbrCopyVector[0] )] for the
    declaration [static const copyFunc_t dbrCopyVector [39]]. *)
Definition dbrCopyVectorSize : nat := 39.

(** Round up to the next multiple of the 8-byte alignment unit
    (section 6). *)
Definition CA_MESSAGE_ALIGN (size : Z) : Z := ((size + 7) / 8 * 8)%Z.

Section Dispatch.

Variable capacityBytes : nat.

(** The dispatch table; its entries are set in [comQueSend.cpp].  A null
    member pointer is [None]. *)
Variable dbrCopyVector : list (option copyFunc_t).

(** [comQueSend::dbr_type_ok] *)
Definition dbr_type_ok (type : nat) : bool :=
  if dbrCopyVectorSize <=? type then false
  else
    match nth_error dbrCopyVector type with
    | Some (Some _) => true
    | _ => false
    end.

(** [comQueSend::push_dbr_type].  Reading past the table or calling
    through a null member pointer is undefined: [None]. *)
Definition push_dbr_type (type : nat) (pVal : list Wire.byte)
    (nElem : nat) (q : t) : option t :=
  match nth_error dbrCopyVector type with
  | Some (Some copy) => copy pVal nElem q
  | _ => None
  end.

(** Encoded size of one element of each data type, the largest value a
    field of the compact header carries, and the value that marks
    "extended header follows": constants of the protocol definition
    (section 9). *)
Variable dbr_size : nat -> Z.
Variable compactMax : Z.
Variable extendedSentinel : Z.

(** Modelled from the spec: [insertRequestHeader] is defined in
    [comQueSend.cpp].  Sections 4.6 and 6: the compact 16-byte header
    when payload size and element count fit its 16-bit fields; otherwise,
    if the caller allows it, a compact header with both fields set to the
    sentinel followed by the 32-bit payload size and element count;
    otherwise the out-of-bounds error, before any byte is written. *)
Definition insertRequestHeader (request : Wire.ca_uint16_t)
    (payloadSize : Wire.ca_uint32_t) (dataType : Wire.ca_uint16_t)
    (nElem cid requestDependent : Wire.ca_uint32_t) (v49Ok : bool)
  : M unit :=
  if ((payloadSize <=? compactMax) && (nElem <=? compactMax))%Z then
    call (pushUInt16 capacityBytes request) ;;
    call (pushUInt16 capacityBytes payloadSize) ;;
    call (pushUInt16 capacityBytes dataType) ;;
    call (pushUInt16 capacityBytes nElem) ;;
    call (pushUInt32 capacityBytes cid) ;;
    call (pushUInt32 capacityBytes requestDependent)
  else if v49Ok then
    call (pushUInt16 capacityBytes request) ;;
    call (pushUInt16 capacityBytes extendedSentinel) ;;
    call (pushUInt16 capacityBytes dataType) ;;
    call (pushUInt16 capacityBytes extendedSentinel) ;;
    call (pushUInt32 capacityBytes cid) ;;
    call (pushUInt32 capacityBytes requestDependent) ;;
    call (pushUInt32 capacityBytes payloadSize) ;;
    call (pushUInt32 capacityBytes nElem)
  else throw outOfBounds.

(** Modelled from the spec: [insertRequestWithPayLoad] is defined in
    [comQueSend.cpp].  Section 4.6: it "validates dataType via 4.5's
    check (fails with a bad-type error if invalid), computes the exact
    encoded payload size for nElem elements of that type, computes the
    required zero-padding to align the payload [...], calls
    insertRequestHeader with the padded size, dispatches the payload
    bytes via 4.5, then pushes the zero-padding bytes". *)
Definition insertRequestWithPayLoad (request : Wire.ca_uint16_t)
    (dataType : nat) (nElem cid requestDependent : Wire.ca_uint32_t)
    (pPayload : list Wire.byte) (v49Ok : bool) : M unit :=
  if negb (dbr_type_ok dataType) then throw badType
  else
    let size := (dbr_size dataType * nElem)%Z in
    let payloadSize := CA_MESSAGE_ALIGN size in
    insertRequestHeader request payloadSize (Z.of_nat dataType) nElem
      cid requestDependent v49Ok ;;
    call (push_dbr_type dataType pPayload (Z.to_nat nElem)) ;;
    call (pushString capacityBytes
            (repeat 0%Z (Z.to_nat (payloadSize - size)))).

End Dispatch.

End comQueSend.

(** ** Local address and broadcast address discovery *)
Module osdNetIfConf.

Local Open Scope Z_scope.

(** Constants of the system headers. *)
Definition AF_UNSPEC : Z := 0.
Definition AF_INET : Z := 2.
Definition IFF_UP : Z := 1.
Definition IFF_BROADCAST : Z := 2.
Definition IFF_LOOPBACK : Z := 8.
Definition IFF_POINTOPOINT : Z := 16.
Definition INADDR_ANY : Z := 0.
Definition INADDR_LOOPBACK : Z := 2130706433.

(** [osiSockAddr], the union of [sockaddr] and [sockaddr_in], by the
    fields the routines read and write. *)
Record osiSockAddr : Type := {
  sa_family : Z;
  sin_port : Z;
  s_addr : Z
}.

(** One entry of the SIOCGIFCONF answer, with what SIOCGIFFLAGS answers
    for it: the status of the call and the flags. *)
Record ifreq : Type := {
  ifr_addr : osiSockAddr;
  ifr_flags_status : Z;
  ifr_flags : Z
}.

(** The answer to SIOCGIFCONF: the status of the call, the length filled
    in, and the entries that the walk from [ifc_req] to [pIfreqListEnd]
    visits. *)
Record ifconf : Type := {
  ifc_status : Z;
  ifc_len : Z;
  ifc_req : list ifreq
}.

(** One node of the list that [getifaddrs] returns.  The three addresses
    are pointers; [None] is the null pointer. *)
Record ifaddrs : Type := {
  ifa_addr : option osiSockAddr;
  ifa_flags : Z;
  ifa_broadaddr : option osiSockAddr;
  ifa_dstaddr : option osiSockAddr
}.

Definition flagSet (flags mask : Z) : bool := negb (Z.land flags mask =? 0).

(** An interface that the scan of [osiLocalAddrOnce] passes over. *)
Definition skipped (r : ifreq) : bool :=
  negb (sa_family (ifr_addr r) =? AF_INET)
  || (ifr_flags_status r <? 0)
  || negb (flagSet (ifr_flags r) IFF_UP)
  || flagSet (ifr_flags r) IFF_LOOPBACK.

(** The [for] loop of [osiLocalAddrOnce]: the address of the first usable
    interface, if any, and the messages logged on the way. *)
Fixpoint scanIfreq (l : list ifreq) : option osiSockAddr * list string :=
  match l with
  | [] => (None, [])
  | pifreq :: rest =>
      if negb (sa_family (ifr_addr pifreq) =? AF_INET) then scanIfreq rest
      else
        let addrCpy := ifr_addr pifreq in
        if ifr_flags_status pifreq <? 0 then
          let '(found, log) := scanIfreq rest in
          (found, "osiLocalAddr(): net intf flags fetch failed"%string :: log)
        else if negb (flagSet (ifr_flags pifreq) IFF_UP) then scanIfreq rest
        else if flagSet (ifr_flags pifreq) IFF_LOOPBACK then scanIfreq rest
        else (Some addrCpy, [])
  end.

Section Host.

(** Host to network byte order, as the host defines it. *)
Variable htonl : Z -> Z.
Variable htons : Z -> Z.

(** The address that the [fail] label of [osiLocalAddrOnce] builds. *)
Definition loopback : osiSockAddr :=
  {| sa_family := AF_INET; sin_port := 0;
     s_addr := htonl INADDR_LOOPBACK |}.

(** [osiLocalAddrOnce]: the value left in [osiLocalAddrResult] and the
    messages logged.  [calloc_ok] tells whether the request list could
    be allocated, [os] is the answer to SIOCGIFCONF on the socket. *)
Definition osiLocalAddrOnce (calloc_ok : bool) (os : ifconf)
  : osiSockAddr * list string :=
  if negb calloc_ok then
    (loopback, ["osiLocalAddr(): no memory to complete request"%string])
  else if (ifc_status os <? 0) || (ifc_len os =? 0) then
    (loopback, ["osiLocalAddr(): SIOCGIFCONF ioctl failed"%string])
  else
    match scanIfreq (ifc_req os) with
    | (Some addr, log) => (addr, log)
    | (None, log) =>
        (loopback, log ++ ["osiLocalAddr(): only loopback found"%string])
    end.

(** [osiLocalAddr]: [once] is [osiLocalAddrResult] when
    [osiLocalAddrOnce] has run already, [None] before. *)
Definition osiLocalAddr (once : option osiSockAddr) (calloc_ok : bool)
    (os : ifconf) : osiSockAddr * option osiSockAddr * list string :=
  match once with
  | Some result => (result, once, [])
  | None =>
      let '(result, log) := osiLocalAddrOnce calloc_ok os in
      (result, Some result, log)
  end.

(** The interface passes the match against [pMatchAddr]. *)
Definition matches (pMatchAddr pInetAddr : osiSockAddr) : bool :=
  (sa_family pMatchAddr =? AF_UNSPEC)
  || ((sa_family pMatchAddr =? AF_INET)
      && ((s_addr pMatchAddr =? htonl INADDR_ANY)
          || (s_addr pInetAddr =? s_addr pMatchAddr))).

(** The [for] loop of [osiSockDiscoverBroadcastAddresses].  [calloc k]
    tells whether the allocation number [k] of the call succeeds.  The loop
    reads [*ifa->ifa_broadaddr] and [*ifa->ifa_dstaddr] without a test:
    [None] is the call that does not return because it reads through a null
    pointer. *)
Fixpoint scanIfaddrs (calloc : nat -> bool) (k : nat)
    (pMatchAddr : osiSockAddr) (l : list ifaddrs)
    (pList : list osiSockAddr) : option (list osiSockAddr * list string) :=
  match l with
  | [] => Some (pList, [])
  | ifa :: rest =>
      match ifa_addr ifa with
      | None => scanIfaddrs calloc k pMatchAddr rest pList
      | Some addr =>
          if negb (sa_family addr =? AF_INET) then
            scanIfaddrs calloc k pMatchAddr rest pList
          else if negb (matches pMatchAddr addr) then
            scanIfaddrs calloc k pMatchAddr rest pList
          else if negb (flagSet (ifa_flags ifa) IFF_UP) then
            scanIfaddrs calloc k pMatchAddr rest pList
          else if flagSet (ifa_flags ifa) IFF_LOOPBACK then
            scanIfaddrs calloc k pMatchAddr rest pList
          else if negb (calloc k) then
            Some (pList,
                  ["osiSockDiscoverBroadcastAddresses(): no memory available for configuration"%string])
          else if flagSet (ifa_flags ifa) IFF_BROADCAST then
            match ifa_broadaddr ifa with
            | None => None
            | Some baddr =>
                if (sa_family baddr =? AF_INET)
                   && negb (s_addr baddr =? INADDR_ANY)
                then scanIfaddrs calloc (S k) pMatchAddr rest
                       (pList ++ [baddr])
                else scanIfaddrs calloc (S k) pMatchAddr rest pList
            end
          else if flagSet (ifa_flags ifa) IFF_POINTOPOINT then
            match ifa_dstaddr ifa with
            | None => None
            | Some dstaddr =>
                scanIfaddrs calloc (S k) pMatchAddr rest (pList ++ [dstaddr])
            end
          else scanIfaddrs calloc (S k) pMatchAddr rest pList
      end
  end.

(** [osiSockDiscoverBroadcastAddresses]: the list [pList] as the call
    leaves it and the messages logged, or [None] when the call does not
    return.  [getifaddrs_result] and [ifaddr] are what [getifaddrs]
    answers. *)
Definition osiSockDiscoverBroadcastAddresses (calloc : nat -> bool)
    (getifaddrs_result : Z) (ifaddr : list ifaddrs)
    (pList : list osiSockAddr) (pMatchAddr : osiSockAddr)
  : option (list osiSockAddr * list string) :=
  if (sa_family pMatchAddr =? AF_INET)
     && (s_addr pMatchAddr =? htonl INADDR_LOOPBACK)
  then
    if negb (calloc O) then
      Some (pList,
            ["osiSockDiscoverBroadcastAddresses(): no memory available for configuration"%string])
    else
      Some (pList ++ [{| sa_family := AF_INET; sin_port := htons 0;
                         s_addr := htonl INADDR_LOOPBACK |}], [])
  else if negb (getifaddrs_result =? 0) then
    Some (pList,
          ["osiSockDiscoverBroadcastAddresses(): getifaddrs failed."%string])
  else scanIfaddrs calloc O pMatchAddr ifaddr pList.

End Host.

End osdNetIfConf.

(** ** Vocabulary of the statements *)
Module Spec.

(** The buffer [b] with [bytes] written after its content. *)
Definition appendTo (b : comBuf.t) (bytes : list Wire.byte) : comBuf.t :=
  {| comBuf.commitIndex := comBuf.commitIndex b;
     comBuf.buf := comBuf.buf b ++ bytes |}.

(** A newly allocated buffer holding [bytes] and nothing else. *)
Definition holding (bytes : list Wire.byte) : comBuf.t :=
  appendTo comBuf.fresh bytes.

(** Number of whole elements of format [W] that still fit in [b]. *)
Definition room {T} (capacityBytes : nat) (W : Wire.format T)
    (b : comBuf.t) : nat :=
  (capacityBytes - comBuf.nextWriteIndex b) / Wire.sizeOf W.

(** The queue [q] after the buffers [new] were linked at its end, one
    after the other. *)
Definition appendBufs (q : comQueSend.t) (new : list comBuf.t)
  : comQueSend.t :=
  fold_left (fun q' cb => comQueSend.pushComBuf cb q') new q.

(** The new buffers that hold the elements [l], cut into pieces of at most
    [e] elements. *)
Definition freshBufs {T} (W : Wire.format T) (e : nat) (l : list T)
  : list comBuf.t :=
  map (fun piece => holding (flat_map (Wire.WireSet W) piece))
      (chunks (length l) e l).

(** The scalar [val] went whole into one buffer on the way from [q] to
    [q']: into the last buffer of [q] when that had room for it, and
    otherwise (no room, or no buffer at all) into a new buffer linked as
    the last one. *)
Definition wroteWhole {T} (capacityBytes : nat) (W : Wire.format T)
    (val : T) (q q' : comQueSend.t) : Prop :=
  (exists front tail,
      comQueSend.bufs q = front ++ [tail]
      /\ Wire.sizeOf W <= capacityBytes - comBuf.nextWriteIndex tail
      /\ q' = comQueSend.with_bufs q
                (front ++ [appendTo tail (Wire.WireSet W val)]))
  \/ ((forall front tail,
         comQueSend.bufs q = front ++ [tail] ->
         capacityBytes - comBuf.nextWriteIndex tail < Wire.sizeOf W)
      /\ q' = comQueSend.pushComBuf (holding (Wire.WireSet W val)) q).

(** The scalar [val] lies whole in one buffer of [q'], the last one, and
    the rest of [q] is as it was.  Either the last buffer of [q] had room
    for the scalar: then the chain of [q'] is that of [q] with the bytes of
    the scalar written at the end of the last buffer, and the uncommitted
    cursor has not moved.  Or [q] had no buffer, or its last buffer lacked
    room: then the chain of [q'] is that of [q], every buffer as it was,
    followed by one more buffer that holds the bytes of the scalar and
    nothing else, and the uncommitted cursor, when it was invalid, marks
    that buffer.  The pending-byte counter is that of [q]. *)
Definition landedWhole {T} (capacityBytes : nat) (W : Wire.format T)
    (val : T) (q q' : comQueSend.t) : Prop :=
  comQueSend.nBytesPending q' = comQueSend.nBytesPending q
  /\ ((exists front tail,
          comQueSend.bufs q = front ++ [tail]
          /\ Wire.sizeOf W <= capacityBytes - length (comBuf.buf tail)
          /\ comQueSend.bufs q'
             = front ++ [ {| comBuf.commitIndex := comBuf.commitIndex tail;
                             comBuf.buf :=
                               comBuf.buf tail ++ Wire.WireSet W val |} ]
          /\ comQueSend.pFirstUncommited q' = comQueSend.pFirstUncommited q)
      \/ ((forall front tail,
             comQueSend.bufs q = front ++ [tail] ->
             capacityBytes - length (comBuf.buf tail) < Wire.sizeOf W)
          /\ comQueSend.bufs q'
             = comQueSend.bufs q
               ++ [ {| comBuf.commitIndex := 0;
                       comBuf.buf := Wire.WireSet W val |} ]
          /\ comQueSend.pFirstUncommited q'
             = match comQueSend.pFirstUncommited q with
               | Some i => Some i
               | None => Some (length (comQueSend.bufs q))
               end)).

(** Invariant 1 of the design description: the counter equals the sum of
    the written offsets of the chain. *)
Definition pendingMatchesChain (q : comQueSend.t) : Prop :=
  comQueSend.occupiedBytes q = comQueSend.chainBytes (comQueSend.bufs q).

(** The pending-byte counter holds a value of its type. *)
Definition pendingInRange (q : comQueSend.t) : Prop :=
  (0 <= comQueSend.nBytesPending q <= UINT_MAX)%Z.

(** The buffers in front of the uncommitted cursor; the whole chain when
    no message is open. *)
Definition committedPart (q : comQueSend.t) : list comBuf.t :=
  match comQueSend.pFirstUncommited q with
  | Some i => firstn i (comQueSend.bufs q)
  | None => comQueSend.bufs q
  end.

(** Every byte that awaits a commit lies at or after the uncommitted
    cursor, and the buffers in front of it are not empty: the states that
    arise when bytes are pushed between [beginMsg] and [commitMsg] only. *)
Definition disciplined (q : comQueSend.t) : Prop :=
  pendingInRange q /\ Forall comBuf.settled (committedPart q).






(** A buffer capacity of 16 KiB. *)
Definition capacity16K : nat := 16 * 1024.

(** The queue after [beginMsg], [pushUInt32 1], [commitMsg] and then
    [pushUInt16 2] with no message open: two bytes in the last buffer
    await a commit and the uncommitted cursor is invalid. *)
Definition toppedUpAfterCommit : comQueSend.t :=
  {| comQueSend.bufs :=
       [ {| comBuf.commitIndex := 4; comBuf.buf := [0; 0; 0; 1; 0; 2]%Z |} ];
     comQueSend.pFirstUncommited := None;
     comQueSend.nBytesPending := 0 |}.

(** A copy routine that pushes the payload as [nElem] bytes, and a
    dispatch table of 39 entries that has it at the codes 0 to 6 and null
    entries at the codes 7 to 38. *)
Definition copy_bytes (capacityBytes : nat) : comQueSend.copyFunc_t :=
  fun pValue nElem => comQueSend.pushN capacityBytes Wire.chars (firstn nElem pValue).

Definition sevenRoutines (capacityBytes : nat)
  : list (option comQueSend.copyFunc_t) :=
  repeat (Some (copy_bytes capacityBytes)) 7 ++ repeat None 32.

(** A match address that accepts every internet interface
    ([INADDR_ANY]), and an answer to SIOCGIFCONF that lists the loopback
    interface only. *)
Definition anyInterface : osdNetIfConf.osiSockAddr :=
  {| osdNetIfConf.sa_family := osdNetIfConf.AF_INET;
     osdNetIfConf.sin_port := 0;
     osdNetIfConf.s_addr := osdNetIfConf.INADDR_ANY |}.

Definition onlyLo : osdNetIfConf.ifconf :=
  {| osdNetIfConf.ifc_status := 0;
     osdNetIfConf.ifc_len := 40;
     osdNetIfConf.ifc_req :=
       [ {| osdNetIfConf.ifr_addr :=
              {| osdNetIfConf.sa_family := osdNetIfConf.AF_INET;
                 osdNetIfConf.sin_port := 0;
                 osdNetIfConf.s_addr := osdNetIfConf.INADDR_LOOPBACK |};
            osdNetIfConf.ifr_flags_status := 0;
            osdNetIfConf.ifr_flags := 73 |} ] |}.

(** A queue holding one committed byte. *)
Definition oneByteQueued : comQueSend.t :=
  {| comQueSend.bufs := [ {| comBuf.commitIndex := 1; comBuf.buf := [65%Z] |} ];
     comQueSend.pFirstUncommited := None;
     comQueSend.nBytesPending := 1 |}.

(** A queue whose only buffer holds three committed bytes, with no message
    open. *)
Definition threeQueued : comQueSend.t :=
  {| comQueSend.bufs :=
       [ {| comBuf.commitIndex := 3; comBuf.buf := [1; 2; 3]%Z |} ];
     comQueSend.pFirstUncommited := None;
     comQueSend.nBytesPending := 3 |}.


(** A queue holding 16 full buffers of [capacityBytes] committed bytes. *)
Definition sixteenFull (capacityBytes : nat) : comQueSend.t :=
  {| comQueSend.bufs :=
       repeat {| comBuf.commitIndex := capacityBytes;
                 comBuf.buf := repeat 0%Z capacityBytes |} 16;
     comQueSend.pFirstUncommited := None;
     comQueSend.nBytesPending := 16 * Z.of_nat capacityBytes |}.

End Spec.

(** ** Sequences of typed pushes *)
Module Script.

(** One call of a typed push. *)
Inductive op : Type :=
| PushUInt16 (value : Wire.ca_uint16_t)
| PushUInt32 (value : Wire.ca_uint32_t)
| PushFloat32 (value : Wire.ca_float32_t)
| PushString (pVal : list Wire.char).

(** The bytes that the call puts on the wire. *)
Definition bytes (o : op) : list Wire.byte :=
  match o with
  | PushUInt16 value => Wire.WireSet Wire.uint16 value
  | PushUInt32 value => Wire.WireSet Wire.uint32 value
  | PushFloat32 value => Wire.WireSet Wire.float32 value
  | PushString pVal => flat_map (Wire.WireSet Wire.chars) pVal
  end.

Section Capacity.

Variable capacityBytes : nat.

Definition step (o : op) : comQueSend.t -> option comQueSend.t :=
  match o with
  | PushUInt16 value => comQueSend.pushUInt16 capacityBytes value
  | PushUInt32 value => comQueSend.pushUInt32 capacityBytes value
  | PushFloat32 value => comQueSend.pushFloat32 capacityBytes value
  | PushString pVal => comQueSend.pushString capacityBytes pVal
  end.

(** The calls of [ops] one after the other; [None] as soon as one of them
    does not return. *)
Fixpoint run (ops : list op) (q : comQueSend.t) : option comQueSend.t :=
  match ops with
  | [] => Some q
  | o :: ops' =>
      match step o q with
      | Some q' => run ops' q'
      | None => None
      end
  end.

(** The elements of [pVal] pushed one at a time with the scalar push. *)
Fixpoint pushEach {T} (W : Wire.format T) (pVal : list T) (q : comQueSend.t)
  : option comQueSend.t :=
  match pVal with
  | [] => Some q
  | val :: pVal' =>
      match comQueSend.push capacityBytes W val q with
      | Some q' => pushEach W pVal' q'
      | None => None
      end
  end.

(** The buffer is not empty and not filled past the capacity. *)
Definition wellFilled (b : comBuf.t) : Prop :=
  0 < comBuf.nextWriteIndex b <= capacityBytes.

End Capacity.

(** The queue [q] with [extra] written after the content of its last
    buffer; [q] itself when it has no buffer. *)
Definition topUp (q : comQueSend.t) (extra : list Wire.byte) : comQueSend.t :=
  match splitLast (comQueSend.bufs q) with
  | Some (front, tail) =>
      comQueSend.with_bufs q (front ++ [Spec.appendTo tail extra])
  | None => q
  end.

(** Nothing of the buffer is committed. *)
Definition uncommitted (b : comBuf.t) : Prop := comBuf.commitIndex b = 0.

End Script.

(** ** The walk over the SIOCGIFCONF answer

    Pointers into the request list are byte offsets from [ifconf.ifc_req]. *)
Module ifreqWalk.

Local Open Scope Z_scope.

Section Layout.

(** [sizeof ( struct ifreq )], and what the [ifreq_size] macro of the
    platform gives for the entry at an offset. *)
Variable sizeof_ifreq : Z.
Variable ifreq_size : Z -> Z.

(** [ifreqSize] *)
Definition ifreqSize (pifreq : Z) : Z :=
  let size := ifreq_size pifreq in
  if size <? sizeof_ifreq then sizeof_ifreq else size.

(** [ifreqNext] *)
Definition ifreqNext (pifreq : Z) : Z := ifreqSize pifreq + pifreq.

(** The entries that the loop
    [for ( pifreq = ifconf.ifc_req; pifreq <= pIfreqListEnd; pifreq = pnextifreq )]
    of [osiLocalAddrOnce] visits when no interface ends it early; [None]
    when [fuel] turns do not end it. *)
Fixpoint visited (fuel : nat) (pifreq pIfreqListEnd : Z) : option (list Z) :=
  if pifreq <=? pIfreqListEnd then
    match fuel with
    | O => None
    | S fuel' =>
        match visited fuel' (ifreqNext pifreq) pIfreqListEnd with
        | Some l => Some (pifreq :: l)
        | None => None
        end
    end
  else Some [].

(** [pIfreqListEnd]: [ifc_len] bytes past the start of the list, less one
    [struct ifreq]. *)
Definition pIfreqListEnd (ifc_len : Z) : Z := ifc_len - sizeof_ifreq.

(** The entries in [offs], met in this order from [start] on, each lie at
    or after [start] and leave room for a whole [struct ifreq] within
    [ifc_len] bytes, and each begins at or after the end of the one
    before. *)
Fixpoint inOrder (ifc_len start : Z) (offs : list Z) : Prop :=
  match offs with
  | [] => True
  | p :: rest =>
      start <= p
      /\ p + sizeof_ifreq <= ifc_len
      /\ inOrder ifc_len (p + ifreqSize p) rest
  end.

End Layout.

End ifreqWalk.

(** ** Vocabulary for the broadcast address discovery *)
Module Discover.

Local Open Scope Z_scope.

Section Host.

Variable htonl : Z -> Z.

(** The address [a] is what the loop of
    [osiSockDiscoverBroadcastAddresses] takes from the interface [ifa] under
    the match address [pMatchAddr]: the interface has an internet address
    that passes the match, is up and is not the loopback interface; [a] is
    its broadcast address when it supports broadcast (that address being an
    internet address other than [INADDR_ANY]), and its destination address
    when it does not and is point to point. *)
Definition yields (pMatchAddr : osdNetIfConf.osiSockAddr)
    (ifa : osdNetIfConf.ifaddrs) (a : osdNetIfConf.osiSockAddr) : Prop :=
  (exists addr,
      osdNetIfConf.ifa_addr ifa = Some addr
      /\ osdNetIfConf.sa_family addr = osdNetIfConf.AF_INET
      /\ osdNetIfConf.matches htonl pMatchAddr addr = true)
  /\ osdNetIfConf.flagSet (osdNetIfConf.ifa_flags ifa) osdNetIfConf.IFF_UP = true
  /\ osdNetIfConf.flagSet (osdNetIfConf.ifa_flags ifa) osdNetIfConf.IFF_LOOPBACK
     = false
  /\ ((osdNetIfConf.flagSet (osdNetIfConf.ifa_flags ifa)
         osdNetIfConf.IFF_BROADCAST = true
       /\ osdNetIfConf.ifa_broadaddr ifa = Some a
       /\ osdNetIfConf.sa_family a = osdNetIfConf.AF_INET
       /\ osdNetIfConf.s_addr a <> osdNetIfConf.INADDR_ANY)
      \/ (osdNetIfConf.flagSet (osdNetIfConf.ifa_flags ifa)
            osdNetIfConf.IFF_BROADCAST = false
          /\ osdNetIfConf.flagSet (osdNetIfConf.ifa_flags ifa)
               osdNetIfConf.IFF_POINTOPOINT = true
          /\ osdNetIfConf.ifa_dstaddr ifa = Some a)).

(** The addresses [added] are taken from the interfaces [l] in their
    order, at most one from each: every interface is passed over or yields
    the next address. *)
Inductive taken (pMatchAddr : osdNetIfConf.osiSockAddr)
  : list osdNetIfConf.ifaddrs -> list osdNetIfConf.osiSockAddr -> Prop :=
| taken_nil : taken pMatchAddr [] []
| taken_skip ifa l added :
    taken pMatchAddr l added -> taken pMatchAddr (ifa :: l) added
| taken_take ifa l a added :
    yields pMatchAddr ifa a ->
    taken pMatchAddr l added ->
    taken pMatchAddr (ifa :: l) (a :: added).

(** The loop reads through a null pointer at the interface [ifa]: the
    interface has an internet address that passes the match, is up and is
    not the loopback interface, and the address that its flags select
    (broadcast, or destination for a point to point interface without
    broadcast) is a null pointer. *)
Definition readsNull (pMatchAddr : osdNetIfConf.osiSockAddr)
    (ifa : osdNetIfConf.ifaddrs) : Prop :=
  (exists addr,
      osdNetIfConf.ifa_addr ifa = Some addr
      /\ osdNetIfConf.sa_family addr = osdNetIfConf.AF_INET
      /\ osdNetIfConf.matches htonl pMatchAddr addr = true)
  /\ osdNetIfConf.flagSet (osdNetIfConf.ifa_flags ifa) osdNetIfConf.IFF_UP = true
  /\ osdNetIfConf.flagSet (osdNetIfConf.ifa_flags ifa) osdNetIfConf.IFF_LOOPBACK
     = false
  /\ ((osdNetIfConf.flagSet (osdNetIfConf.ifa_flags ifa)
         osdNetIfConf.IFF_BROADCAST = true
       /\ osdNetIfConf.ifa_broadaddr ifa = None)
      \/ (osdNetIfConf.flagSet (osdNetIfConf.ifa_flags ifa)
            osdNetIfConf.IFF_BROADCAST = false
          /\ osdNetIfConf.flagSet (osdNetIfConf.ifa_flags ifa)
               osdNetIfConf.IFF_POINTOPOINT = true
          /\ osdNetIfConf.ifa_dstaddr ifa = None)).

End Host.

(** The address that the flags of the interface select is there: the
    broadcast address of an interface that supports broadcast, the
    destination address of a point to point interface that does not. *)
Definition sound (ifa : osdNetIfConf.ifaddrs) : Prop :=
  (osdNetIfConf.flagSet (osdNetIfConf.ifa_flags ifa) osdNetIfConf.IFF_BROADCAST
   = true ->
   osdNetIfConf.ifa_broadaddr ifa <> None)
  /\ (osdNetIfConf.flagSet (osdNetIfConf.ifa_flags ifa)
        osdNetIfConf.IFF_BROADCAST = false ->
      osdNetIfConf.flagSet (osdNetIfConf.ifa_flags ifa)
        osdNetIfConf.IFF_POINTOPOINT = true ->
      osdNetIfConf.ifa_dstaddr ifa <> None).

(** The interfaces of [l] whose flags could not be fetched, among the
    internet interfaces. *)
Definition flagFetchFailures (l : list osdNetIfConf.ifreq) : nat :=
  length
    (filter
       (fun r =>
          (osdNetIfConf.sa_family (osdNetIfConf.ifr_addr r)
             =? osdNetIfConf.AF_INET)
          && (osdNetIfConf.ifr_flags_status r <? 0))
       l).

(** Sample data: an ethernet interface that is up and supports broadcast,
    as SIOCGIFCONF and as [getifaddrs] report it. *)
Definition eth0_addr : osdNetIfConf.osiSockAddr :=
  {| osdNetIfConf.sa_family := osdNetIfConf.AF_INET;
     osdNetIfConf.sin_port := 0;
     osdNetIfConf.s_addr := 3232235786 |}.

Definition eth0_bcast : osdNetIfConf.osiSockAddr :=
  {| osdNetIfConf.sa_family := osdNetIfConf.AF_INET;
     osdNetIfConf.sin_port := 0;
     osdNetIfConf.s_addr := 3232236031 |}.

Definition eth0_req : osdNetIfConf.ifreq :=
  {| osdNetIfConf.ifr_addr := eth0_addr;
     osdNetIfConf.ifr_flags_status := 0;
     osdNetIfConf.ifr_flags := 4163 |}.

Definition eth0_ifa : osdNetIfConf.ifaddrs :=
  {| osdNetIfConf.ifa_addr := Some eth0_addr;
     osdNetIfConf.ifa_flags := 4163;
     osdNetIfConf.ifa_broadaddr := Some eth0_bcast;
     osdNetIfConf.ifa_dstaddr := Some eth0_bcast |}.

(** A point to point interface that is up and whose destination address
    is a null pointer. *)
Definition ppp0_ifa : osdNetIfConf.ifaddrs :=
  {| osdNetIfConf.ifa_addr := Some eth0_addr;
     osdNetIfConf.ifa_flags := 4305;
     osdNetIfConf.ifa_broadaddr := None;
     osdNetIfConf.ifa_dstaddr := None |}.

(** A match address of a family that is neither unspecified nor
    internet (AF_INET6). *)
Definition otherFamily : osdNetIfConf.osiSockAddr :=
  {| osdNetIfConf.sa_family := 10;
     osdNetIfConf.sin_port := 0;
     osdNetIfConf.s_addr := 0 |}.

End Discover.

(** * Properties *)

(** ** Arithmetic and lists *)

Lemma u32_small x : (0 <= x <= UINT_MAX)%Z -> u32 x = x.
Proof. unfold u32, UINT_MAX. intros H. apply Z.mod_small. lia. Qed.

Lemma u32_range x : (0 <= u32 x <= UINT_MAX)%Z.
Proof.
  unfold u32, UINT_MAX.
  pose proof (Z.mod_pos_bound x 4294967296 ltac:(lia)). lia.
Qed.

Lemma splitLast_app {A} (l : list A) x : splitLast (l ++ [x]) = Some (l, x).
Proof.
  induction l as [|a l IH]; simpl; [reflexivity|].
  rewrite IH. reflexivity.
Qed.

Lemma splitLast_Some {A} (l front : list A) x :
  splitLast l = Some (front, x) -> l = front ++ [x].
Proof.
  revert front x. induction l as [|a l IH]; simpl; intros front x H.
  - discriminate.
  - destruct (splitLast l) as [[f y]|] eqn:E.
    + inversion H; subst. rewrite (IH f x eq_refl). reflexivity.
    + inversion H; subst. destruct l as [|b l]; [reflexivity|].
      simpl in E. destruct (splitLast l) as [[? ?]|]; discriminate.
Qed.

Lemma splitLast_None {A} (l : list A) : splitLast l = None -> l = [].
Proof.
  destruct l as [|a l]; simpl; [reflexivity|].
  destruct (splitLast l) as [[? ?]|]; discriminate.
Qed.

(** ** Flush accounting *)

Section FlushAccounting.

Variable capacityBytes : nat.

Local Open Scope Z_scope.

Lemma flushEarly_unfold q n :
  0 <= comQueSend.occupiedBytes q + n <= UINT_MAX ->
  16 * Z.of_nat capacityBytes <= UINT_MAX ->
  comQueSend.flushEarlyThreshold capacityBytes q n
  = (comQueSend.occupiedBytes q + n >? 4 * Z.of_nat capacityBytes).
Proof.
  intros Hs Hc. unfold comQueSend.flushEarlyThreshold, comQueSend.occupiedBytes in *.
  rewrite !u32_small by lia. reflexivity.
Qed.

Lemma flushBlock_unfold q n :
  0 <= comQueSend.occupiedBytes q + n <= UINT_MAX ->
  16 * Z.of_nat capacityBytes <= UINT_MAX ->
  comQueSend.flushBlockThreshold capacityBytes q n
  = (comQueSend.occupiedBytes q + n >? 16 * Z.of_nat capacityBytes).
Proof.
  intros Hs Hc. unfold comQueSend.flushBlockThreshold, comQueSend.occupiedBytes in *.
  rewrite !u32_small by lia. reflexivity.
Qed.

(** C9, as amended.  When [pending + nBytesThisMsg] does not exceed the
    largest [unsigned] value (and neither does 16 times the buffer
    capacity), [flushEarlyThreshold] is true exactly when the sum exceeds 4
    buffer capacities and [flushBlockThreshold] exactly when it exceeds 16;
    at the exact limit each is false.  Both are functions of the queue and
    the argument to a boolean: they leave no trace on the queue. *)
Theorem flush_thresholds_without_overflow (q : comQueSend.t) (nBytesThisMsg : Z) :
  0 <= comQueSend.occupiedBytes q ->
  0 <= nBytesThisMsg ->
  comQueSend.occupiedBytes q + nBytesThisMsg <= UINT_MAX ->
  16 * Z.of_nat capacityBytes <= UINT_MAX ->
  (comQueSend.flushEarlyThreshold capacityBytes q nBytesThisMsg = true
     <-> comQueSend.occupiedBytes q + nBytesThisMsg > 4 * Z.of_nat capacityBytes)
  /\ (comQueSend.flushBlockThreshold capacityBytes q nBytesThisMsg = true
     <-> comQueSend.occupiedBytes q + nBytesThisMsg > 16 * Z.of_nat capacityBytes)
  /\ (comQueSend.occupiedBytes q + nBytesThisMsg = 4 * Z.of_nat capacityBytes
     -> comQueSend.flushEarlyThreshold capacityBytes q nBytesThisMsg = false)
  /\ (comQueSend.occupiedBytes q + nBytesThisMsg = 16 * Z.of_nat capacityBytes
     -> comQueSend.flushBlockThreshold capacityBytes q nBytesThisMsg = false).
Proof.
  intros Hp Hn Hs Hc.
  rewrite flushEarly_unfold, flushBlock_unfold by lia.
  repeat split; intros H; try lia.
Qed.

(** C10.  Whenever [flushBlockThreshold] answers true,
    [flushEarlyThreshold] answers true for the same queue and argument;
    16 times the buffer capacity is taken to be an [unsigned] value. *)
Theorem flushBlock_implies_flushEarly (q : comQueSend.t) (nBytesThisMsg : Z) :
  16 * Z.of_nat capacityBytes <= UINT_MAX ->
  comQueSend.flushBlockThreshold capacityBytes q nBytesThisMsg = true ->
  comQueSend.flushEarlyThreshold capacityBytes q nBytesThisMsg = true.
Proof.
  unfold comQueSend.flushBlockThreshold, comQueSend.flushEarlyThreshold.
  intros Hc H.
  rewrite (u32_small (16 * _)) in H by lia.
  rewrite (u32_small (4 * _)) by lia.
  lia.
Qed.

End FlushAccounting.

Lemma flush_thresholds_without_overflow_witness :
  (comQueSend.flushEarlyThreshold Spec.capacity16K Spec.oneByteQueued 65536 = true
     <-> (comQueSend.occupiedBytes Spec.oneByteQueued + 65536 > 4 * Z.of_nat Spec.capacity16K)%Z)
  /\ (comQueSend.flushBlockThreshold Spec.capacity16K Spec.oneByteQueued 65536 = true
     <-> (comQueSend.occupiedBytes Spec.oneByteQueued + 65536 > 16 * Z.of_nat Spec.capacity16K)%Z)
  /\ ((comQueSend.occupiedBytes Spec.oneByteQueued + 65536 = 4 * Z.of_nat Spec.capacity16K)%Z
     -> comQueSend.flushEarlyThreshold Spec.capacity16K Spec.oneByteQueued 65536 = false)
  /\ ((comQueSend.occupiedBytes Spec.oneByteQueued + 65536 = 16 * Z.of_nat Spec.capacity16K)%Z
     -> comQueSend.flushBlockThreshold Spec.capacity16K Spec.oneByteQueued 65536 = false).
Proof.
  apply (flush_thresholds_without_overflow Spec.capacity16K Spec.oneByteQueued 65536);
    vm_compute; congruence.
Defined.

(** C9, as stated, fails when the addition wraps: with one byte pending and
    a message of 4294967295 bytes the sum exceeds both limits, and both
    predicates answer false. *)
Lemma flush_thresholds_wrap :
  (comQueSend.occupiedBytes Spec.oneByteQueued + 4294967295 > 16 * Z.of_nat Spec.capacity16K)%Z
  /\ comQueSend.flushEarlyThreshold Spec.capacity16K Spec.oneByteQueued 4294967295 = false
  /\ comQueSend.flushBlockThreshold Spec.capacity16K Spec.oneByteQueued 4294967295 = false.
Proof. vm_compute. repeat split; congruence. Qed.

Lemma flushBlock_implies_flushEarly_witness :
  comQueSend.flushBlockThreshold Spec.capacity16K (Spec.sixteenFull Spec.capacity16K) 1 = true
  /\ comQueSend.flushEarlyThreshold Spec.capacity16K (Spec.sixteenFull Spec.capacity16K) 1 = true.
Proof.
  split; [vm_compute; reflexivity|].
  apply (flushBlock_implies_flushEarly Spec.capacity16K (Spec.sixteenFull Spec.capacity16K) 1);
    vm_compute; congruence.
Defined.

(** ** Typed payload dispatch *)

Section DispatchTable.

Variable dbrCopyVector : list (option comQueSend.copyFunc_t).

Lemma dbr_type_ok_true (type : nat) :
  comQueSend.dbr_type_ok dbrCopyVector type = true ->
  type < comQueSend.dbrCopyVectorSize
  /\ exists copy, nth_error dbrCopyVector type = Some (Some copy).
Proof.
  unfold comQueSend.dbr_type_ok.
  destruct (Nat.leb_spec comQueSend.dbrCopyVectorSize type) as [Hge|Hlt];
    [discriminate|].
  destruct (nth_error dbrCopyVector type) as [[copy|]|] eqn:E;
    try discriminate.
  intros _. split; [exact Hlt | exists copy; reflexivity].
Qed.

Lemma dbr_type_ok_false (type : nat) :
  comQueSend.dbr_type_ok dbrCopyVector type = false ->
  comQueSend.dbrCopyVectorSize <= type
  \/ nth_error dbrCopyVector type = Some None
  \/ nth_error dbrCopyVector type = None.
Proof.
  unfold comQueSend.dbr_type_ok.
  destruct (Nat.leb_spec comQueSend.dbrCopyVectorSize type) as [Hge|Hlt];
    [intros _; left; exact Hge|].
  destruct (nth_error dbrCopyVector type) as [[copy|]|] eqn:E;
    [discriminate | auto | auto].
Qed.

(** C6.  The table has its 39 declared entries.  [dbr_type_ok type] is
    true exactly when [type] is below 39 and the entry for [type] is not
    null; and when it is true, the lookup of [push_dbr_type] is inside the
    table, finds a copy routine, and the call is the call of that
    routine. *)
Theorem dbr_type_ok_guards_dispatch (type : nat) :
  length dbrCopyVector = comQueSend.dbrCopyVectorSize ->
  (comQueSend.dbr_type_ok dbrCopyVector type = true
     <-> type < 39
         /\ exists copy, nth_error dbrCopyVector type = Some (Some copy))
  /\ (comQueSend.dbr_type_ok dbrCopyVector type = true ->
      type < length dbrCopyVector
      /\ exists copy,
           nth_error dbrCopyVector type = Some (Some copy)
           /\ forall pVal nElem q,
                comQueSend.push_dbr_type dbrCopyVector type pVal nElem q
                = copy pVal nElem q).
Proof.
  intros Hlen. split; [split|].
  - apply dbr_type_ok_true.
  - intros [Hlt [copy E]]. unfold comQueSend.dbr_type_ok.
    destruct (Nat.leb_spec comQueSend.dbrCopyVectorSize type) as [Hge|_].
    + unfold comQueSend.dbrCopyVectorSize in Hge. lia.
    + rewrite E. reflexivity.
  - intros Hok. destruct (dbr_type_ok_true type Hok) as [Hlt [copy E]].
    split; [rewrite Hlen; exact Hlt|].
    exists copy. split; [exact E|].
    intros pVal nElem q. unfold comQueSend.push_dbr_type.
    rewrite E. reflexivity.
Qed.

End DispatchTable.

Lemma dbr_type_ok_guards_dispatch_witness :
  length (Spec.sevenRoutines Spec.capacity16K) = comQueSend.dbrCopyVectorSize
  /\ comQueSend.dbr_type_ok (Spec.sevenRoutines Spec.capacity16K) 4 = true
  /\ (comQueSend.dbr_type_ok (Spec.sevenRoutines Spec.capacity16K) 4 = true
      <-> 4 < 39
          /\ exists copy,
               nth_error (Spec.sevenRoutines Spec.capacity16K) 4
               = Some (Some copy)).
Proof.
  assert (H : length (Spec.sevenRoutines Spec.capacity16K)
              = comQueSend.dbrCopyVectorSize) by reflexivity.
  split; [exact H|]. split; [reflexivity|].
  exact (proj1 (dbr_type_ok_guards_dispatch
                  (Spec.sevenRoutines Spec.capacity16K) 4 H)).
Defined.

(** ** Cutting a list into pieces *)

Lemma ceil_div_0 e : 1 <= e -> ceil_div 0 e = 0.
Proof. intros He. unfold ceil_div. apply Nat.div_small. lia. Qed.

Lemma ceil_div_step len e :
  1 <= e -> 1 <= len -> S (ceil_div (len - Nat.min len e) e) = ceil_div len e.
Proof.
  intros He Hl. unfold ceil_div.
  destruct (Nat.le_gt_cases len e) as [Hle|Hgt].
  - rewrite Nat.min_l by exact Hle. rewrite Nat.sub_diag.
    rewrite (Nat.div_small (0 + e - 1) e) by lia.
    apply (Nat.div_unique (len + e - 1) e 1 (len - 1)); lia.
  - rewrite Nat.min_r by lia.
    replace (len + e - 1) with ((len - e + e - 1) + 1 * e) by lia.
    rewrite Nat.div_add by lia. lia.
Qed.

Lemma ceil_div_scale n e s :
  0 < s -> 0 < e -> ceil_div (n * s) (e * s) = ceil_div n e.
Proof.
  intros Hs He. unfold ceil_div.
  pose proof (Nat.div_mod (n + e - 1) e ltac:(lia)) as Hdm.
  pose proof (Nat.mod_upper_bound (n + e - 1) e ltac:(lia)) as Hr.
  set (k := (n + e - 1) / e) in *. set (r := (n + e - 1) mod e) in *.
  symmetry.
  apply (Nat.div_unique (n * s + e * s - 1) (e * s) k ((r + 1) * s - 1)).
  - nia.
  - assert (Hn : n + e = e * k + r + 1) by lia.
    assert (Hm : (n + e) * s = (e * k + r + 1) * s) by (rewrite Hn; reflexivity).
    nia.
Qed.

Lemma chunks_concat {A} (fuel e : nat) (l : list A) :
  1 <= e -> length l <= fuel -> concat (chunks fuel e l) = l.
Proof.
  intros He. revert l. induction fuel as [|fuel IH]; intros l Hl.
  - destruct l; [reflexivity | simpl in Hl; lia].
  - destruct l as [|x l']; [reflexivity|].
    cbn [chunks concat].
    set (n := Nat.min (length (x :: l')) e).
    rewrite IH.
    + apply firstn_skipn.
    + rewrite length_skipn. subst n. cbn [length] in *. lia.
Qed.

Lemma chunks_length {A} (fuel e : nat) (l : list A) :
  1 <= e -> length l <= fuel ->
  length (chunks fuel e l) = ceil_div (length l) e.
Proof.
  intros He. revert l. induction fuel as [|fuel IH]; intros l Hl.
  - destruct l; [simpl; rewrite ceil_div_0; auto | simpl in Hl; lia].
  - destruct l as [|x l']; [simpl; rewrite ceil_div_0; auto|].
    cbn [chunks length].
    set (n := Nat.min (length (x :: l')) e).
    rewrite IH.
    + rewrite length_skipn. subst n.
      apply (ceil_div_step (length (x :: l')) e); cbn [length]; lia.
    + rewrite length_skipn. subst n. cbn [length] in *. lia.
Qed.

Lemma chunks_nil {A} (fuel e : nat) : chunks fuel e (@nil A) = [].
Proof. destruct fuel; reflexivity. Qed.

Lemma flat_map_concat_pieces {A B} (f : A -> list B) (ls : list (list A)) :
  concat (map (flat_map f) ls) = flat_map f (concat ls).
Proof.
  induction ls as [|l ls IH]; simpl; [reflexivity|].
  rewrite flat_map_app, IH. reflexivity.
Qed.

(** ** Wire formats *)

Lemma uint16_lawful : Wire.lawful Wire.uint16.
Proof. split; simpl; [lia | reflexivity]. Qed.

Lemma uint32_lawful : Wire.lawful Wire.uint32.
Proof. split; simpl; [lia | reflexivity]. Qed.

Lemma float32_lawful : Wire.lawful Wire.float32.
Proof. split; simpl; [lia | reflexivity]. Qed.

Lemma chars_lawful : Wire.lawful Wire.chars.
Proof. split; simpl; [lia | reflexivity]. Qed.

Lemma wire_flat_map_length {T} (W : Wire.format T) (l : list T) :
  Wire.lawful W ->
  length (flat_map (Wire.WireSet W) l) = length l * Wire.sizeOf W.
Proof.
  intros [_ HW]. induction l as [|x l IH]; simpl; [reflexivity|].
  rewrite length_app, HW, IH. lia.
Qed.

(** ** Linking buffers *)

Lemma lastIter_snoc (l : list comBuf.t) (cb : comBuf.t) :
  comQueSend.lastIter (l ++ [cb]) = Some (length l).
Proof.
  unfold comQueSend.lastIter.
  destruct l as [|a l]; [reflexivity|].
  simpl. rewrite length_app. simpl. f_equal. lia.
Qed.

Lemma appendBufs_bufs (new : list comBuf.t) (q : comQueSend.t) :
  comQueSend.bufs (Spec.appendBufs q new) = comQueSend.bufs q ++ new.
Proof.
  unfold Spec.appendBufs. revert q.
  induction new as [|cb new IH]; intros q; simpl.
  - rewrite app_nil_r. reflexivity.
  - rewrite IH. simpl. rewrite <- app_assoc. reflexivity.
Qed.

Lemma appendBufs_pending (new : list comBuf.t) (q : comQueSend.t) :
  comQueSend.nBytesPending (Spec.appendBufs q new) = comQueSend.nBytesPending q.
Proof.
  unfold Spec.appendBufs. revert q.
  induction new as [|cb new IH]; intros q; simpl; [reflexivity|].
  rewrite IH. reflexivity.
Qed.

Lemma appendBufs_cursor (new : list comBuf.t) (q : comQueSend.t) :
  comQueSend.pFirstUncommited (Spec.appendBufs q new)
  = match comQueSend.pFirstUncommited q with
    | Some i => Some i
    | None =>
        match new with
        | [] => None
        | _ :: _ => Some (length (comQueSend.bufs q))
        end
    end.
Proof.
  unfold Spec.appendBufs. revert q.
  induction new as [|cb new IH]; intros q; simpl.
  - destruct (comQueSend.pFirstUncommited q); reflexivity.
  - rewrite IH. simpl.
    destruct (comQueSend.pFirstUncommited q) as [i|]; simpl; [reflexivity|].
    rewrite lastIter_snoc. reflexivity.
Qed.

Lemma chainData_app (l1 l2 : list comBuf.t) :
  comQueSend.chainData (l1 ++ l2)
  = comQueSend.chainData l1 ++ comQueSend.chainData l2.
Proof.
  unfold comQueSend.chainData. rewrite map_app, concat_app. reflexivity.
Qed.

Lemma chainBytes_data (l : list comBuf.t) :
  comQueSend.chainBytes l = Z.of_nat (length (comQueSend.chainData l)).
Proof.
  unfold comQueSend.chainBytes, comQueSend.chainData. f_equal.
  induction l as [|b l IH]; simpl; [reflexivity|].
  rewrite length_app, IH. reflexivity.
Qed.

Lemma chunks_cons {A} (fuel e : nat) (l : list A) :
  1 <= length l ->
  chunks (S fuel) e l
  = firstn (Nat.min (length l) e) l
      :: chunks fuel e (skipn (Nat.min (length l) e) l).
Proof. destruct l as [|x l]; simpl; [lia | reflexivity]. Qed.

Lemma chunks_fuel {A} (f1 f2 e : nat) (l : list A) :
  1 <= e -> length l <= f1 -> length l <= f2 ->
  chunks f1 e l = chunks f2 e l.
Proof.
  intros He. revert f2 l.
  induction f1 as [|f1 IH]; intros f2 l H1 H2.
  - destruct l; [rewrite !chunks_nil; reflexivity | simpl in H1; lia].
  - destruct l as [|x l']; [rewrite !chunks_nil; reflexivity|].
    destruct f2 as [|f2]; [simpl in H2; lia|].
    rewrite !chunks_cons by (cbn [length]; lia).
    f_equal. apply IH; rewrite length_skipn; cbn [length] in *; lia.
Qed.

(** ** The push templates *)

Section PushTemplates.

Variable capacityBytes : nat.
Variable T : Type.
Variable W : Wire.format T.

(** Elements of format [W] that a new buffer takes. *)
Let perBuf : nat := capacityBytes / Wire.sizeOf W.

Lemma pushLoop_spec (fuel : nat) (pVal : list T) :
  1 <= perBuf ->
  forall (nCopied : nat) (q : comQueSend.t),
    length (skipn nCopied pVal) <= fuel ->
    comQueSend.pushLoop capacityBytes fuel W pVal nCopied q
    = Some (Spec.appendBufs q
              (map (fun piece => Spec.holding (flat_map (Wire.WireSet W) piece))
                   (chunks fuel perBuf (skipn nCopied pVal)))).
Proof.
  intros He. induction fuel as [|fuel IH]; intros nCopied q Hfuel.
  - rewrite length_skipn in Hfuel. cbn [comQueSend.pushLoop].
    destruct (Nat.ltb_spec nCopied (length pVal)) as [Hlt|Hge]; [lia|].
    reflexivity.
  - cbn [comQueSend.pushLoop].
    destruct (Nat.ltb_spec nCopied (length pVal)) as [Hlt|Hge].
    + set (rest := skipn nCopied pVal) in *.
      assert (Hrest : 1 <= length rest)
        by (subst rest; rewrite length_skipn; lia).
      rewrite chunks_cons by exact Hrest.
      cbv beta iota zeta delta [comBuf.pushN].
      replace (capacityBytes - comBuf.nextWriteIndex comBuf.fresh)
        with capacityBytes by (cbn; lia).
      fold perBuf.
      set (n := Nat.min (length rest) perBuf).
      rewrite IH.
      * replace (skipn (nCopied + n) pVal) with (skipn n rest)
          by (subst rest; rewrite skipn_skipn; f_equal; lia).
        reflexivity.
      * replace (skipn (nCopied + n) pVal) with (skipn n rest)
          by (subst rest; rewrite skipn_skipn; f_equal; lia).
        rewrite length_skipn. subst n. lia.
    + rewrite skipn_all2 by lia. reflexivity.
Qed.

(** On a queue without buffers the array push links the pieces of the
    array, one new buffer each. *)
Lemma pushN_empty (pVal : list T) (q : comQueSend.t) :
  1 <= perBuf ->
  comQueSend.bufs q = [] ->
  comQueSend.pushN capacityBytes W pVal q
  = Some (Spec.appendBufs q (Spec.freshBufs W perBuf pVal)).
Proof.
  intros He Hb. unfold comQueSend.pushN. rewrite Hb. cbn [splitLast].
  rewrite pushLoop_spec by (try exact He; rewrite length_skipn; lia).
  rewrite Nat.sub_0_r. reflexivity.
Qed.

(** On a queue with buffers the array push first fills the last buffer
    with as many elements as it has room for, then links the pieces of the
    remainder. *)
Lemma pushN_tail (pVal : list T) (q : comQueSend.t) front tail :
  1 <= perBuf ->
  comQueSend.bufs q = front ++ [tail] ->
  let n := Nat.min (length pVal) (Spec.room capacityBytes W tail) in
  comQueSend.pushN capacityBytes W pVal q
  = Some (Spec.appendBufs
            (comQueSend.with_bufs q
               (front ++ [Spec.appendTo tail
                            (flat_map (Wire.WireSet W) (firstn n pVal))]))
            (Spec.freshBufs W perBuf (skipn n pVal))).
Proof.
  intros He Hb n. unfold comQueSend.pushN.
  rewrite Hb, splitLast_app.
  cbv beta iota zeta delta [comBuf.pushN].
  fold (Spec.room capacityBytes W tail). fold n.
  rewrite pushLoop_spec by (try exact He; rewrite length_skipn; lia).
  unfold Spec.freshBufs. rewrite length_skipn. reflexivity.
Qed.

(** Whatever the chain, the array push appends the encoded elements, in
    order, to the bytes of the chain, and leaves the counter alone. *)
Lemma pushN_appends (pVal : list T) (q : comQueSend.t) :
  1 <= perBuf ->
  exists q',
    comQueSend.pushN capacityBytes W pVal q = Some q'
    /\ comQueSend.chainData (comQueSend.bufs q')
       = comQueSend.chainData (comQueSend.bufs q)
           ++ flat_map (Wire.WireSet W) pVal
    /\ comQueSend.nBytesPending q' = comQueSend.nBytesPending q.
Proof.
  intros He.
  assert (Hdata : forall l : list T,
    comQueSend.chainData (Spec.freshBufs W perBuf l)
    = flat_map (Wire.WireSet W) l).
  { intros l. unfold comQueSend.chainData, Spec.freshBufs.
    rewrite map_map. cbn [Spec.holding Spec.appendTo comBuf.buf comBuf.fresh app].
    rewrite flat_map_concat_pieces, chunks_concat by (auto; lia).
    reflexivity. }
  destruct (splitLast (comQueSend.bufs q)) as [[front tail]|] eqn:E.
  - apply splitLast_Some in E.
    eexists. split; [apply (pushN_tail pVal q front tail He E)|].
    rewrite appendBufs_bufs, appendBufs_pending. cbn [comQueSend.with_bufs
      comQueSend.bufs comQueSend.nBytesPending].
    split; [|reflexivity].
    rewrite E, !chainData_app, Hdata.
    unfold comQueSend.chainData at 2 4. cbn [map concat Spec.appendTo comBuf.buf].
    rewrite !app_nil_r, <- !app_assoc. f_equal. f_equal.
    rewrite <- flat_map_app, firstn_skipn. reflexivity.
  - apply splitLast_None in E.
    eexists. split; [apply (pushN_empty pVal q He E)|].
    rewrite appendBufs_bufs, appendBufs_pending.
    split; [|reflexivity].
    rewrite chainData_app, Hdata. reflexivity.
Qed.

End PushTemplates.

Section ScalarPush.

Variable capacityBytes : nat.
Variable T : Type.
Variable W : Wire.format T.

Lemma push_tail (val : T) (q : comQueSend.t) front tail :
  comQueSend.bufs q = front ++ [tail] ->
  Wire.sizeOf W <= capacityBytes - comBuf.nextWriteIndex tail ->
  comQueSend.push capacityBytes W val q
  = Some (comQueSend.with_bufs q
            (front ++ [Spec.appendTo tail (Wire.WireSet W val)])).
Proof.
  intros Hb Hroom. unfold comQueSend.push, comBuf.push.
  rewrite Hb, splitLast_app.
  destruct (Nat.leb_spec (Wire.sizeOf W)
              (capacityBytes - comBuf.nextWriteIndex tail)); [|lia].
  reflexivity.
Qed.

Lemma push_fresh (val : T) (q : comQueSend.t) :
  Wire.sizeOf W <= capacityBytes ->
  (forall front tail,
      comQueSend.bufs q = front ++ [tail] ->
      capacityBytes - comBuf.nextWriteIndex tail < Wire.sizeOf W) ->
  comQueSend.push capacityBytes W val q
  = Some (comQueSend.pushComBuf (Spec.holding (Wire.WireSet W val)) q).
Proof.
  intros Hcap Hfull. unfold comQueSend.push, comBuf.push.
  replace (capacityBytes - comBuf.nextWriteIndex comBuf.fresh)
    with capacityBytes by (cbn; lia).
  destruct (Nat.leb_spec (Wire.sizeOf W) capacityBytes); [|lia].
  destruct (splitLast (comQueSend.bufs q)) as [[front tail]|] eqn:E;
    [|reflexivity].
  apply splitLast_Some in E. specialize (Hfull front tail E).
  destruct (Nat.leb_spec (Wire.sizeOf W)
              (capacityBytes - comBuf.nextWriteIndex tail)); [lia|].
  reflexivity.
Qed.

(** A scalar that fits a buffer is always accepted, goes whole into one
    buffer, follows the bytes of the chain, and leaves the counter
    alone. *)
Lemma push_spec (val : T) (q : comQueSend.t) :
  Wire.sizeOf W <= capacityBytes ->
  exists q',
    comQueSend.push capacityBytes W val q = Some q'
    /\ Spec.wroteWhole capacityBytes W val q q'
    /\ comQueSend.chainData (comQueSend.bufs q')
       = comQueSend.chainData (comQueSend.bufs q) ++ Wire.WireSet W val
    /\ comQueSend.nBytesPending q' = comQueSend.nBytesPending q.
Proof.
  intros Hcap.
  assert (Hcases :
    (exists front tail,
        comQueSend.bufs q = front ++ [tail]
        /\ Wire.sizeOf W <= capacityBytes - comBuf.nextWriteIndex tail)
    \/ (forall front tail,
           comQueSend.bufs q = front ++ [tail] ->
           capacityBytes - comBuf.nextWriteIndex tail < Wire.sizeOf W)).
  { destruct (splitLast (comQueSend.bufs q)) as [[front tail]|] eqn:E.
    - apply splitLast_Some in E.
      destruct (Nat.le_gt_cases (Wire.sizeOf W)
                  (capacityBytes - comBuf.nextWriteIndex tail)) as [Hle|Hgt].
      + left. exists front, tail. auto.
      + right. intros front' tail' E'. rewrite E in E'.
        apply app_inj_tail in E'. destruct E' as [_ ->]. exact Hgt.
    - apply splitLast_None in E. right. intros front tail E'.
      rewrite E in E'. destruct front; discriminate. }
  destruct Hcases as [[front [tail [Hb Hroom]]]|Hfull].
  - eexists. split; [apply (push_tail val q front tail Hb Hroom)|].
    split; [left; exists front, tail; auto|].
    cbn [comQueSend.with_bufs comQueSend.bufs comQueSend.nBytesPending].
    split; [|reflexivity].
    rewrite Hb, !chainData_app. unfold comQueSend.chainData at 2 4.
    cbn [map concat Spec.appendTo comBuf.buf].
    rewrite !app_nil_r, app_assoc. reflexivity.
  - eexists. split; [apply (push_fresh val q Hcap Hfull)|].
    split; [right; auto|].
    cbn [comQueSend.pushComBuf comQueSend.bufs comQueSend.nBytesPending].
    split; [|reflexivity].
    rewrite chainData_app. unfold comQueSend.chainData at 3.
    cbn. rewrite app_nil_r. reflexivity.
Qed.

End ScalarPush.

(** ** Scalars stay whole *)

Lemma wroteWhole_landed (capacityBytes : nat) {T} (W : Wire.format T)
    (val : T) (q q' : comQueSend.t) :
  Spec.wroteWhole capacityBytes W val q q' ->
  Spec.landedWhole capacityBytes W val q q'.
Proof.
  intros [[front [tail [Hb [Hroom ->]]]]|[Hfull ->]].
  - split; [reflexivity|]. left. exists front, tail.
    split; [exact Hb|]. split; [exact Hroom|]. split; reflexivity.
  - split; [reflexivity|]. right.
    split; [exact Hfull|]. split; [reflexivity|].
    cbn [comQueSend.pushComBuf comQueSend.pFirstUncommited].
    destruct (comQueSend.pFirstUncommited q) as [i|]; [reflexivity|].
    cbn [comQueSend.valid negb]. apply lastIter_snoc.
Qed.

(** C7.  With a buffer capacity of at least 4 bytes, [pushUInt16],
    [pushUInt32] and [pushFloat32] always return (the assertion on the new
    buffer holds), and the 2 or 4 bytes of the scalar lie whole in one
    buffer.  When the last buffer had room for them they are written at its
    end, and nothing else changes.  Otherwise (no room in the last buffer,
    or no buffer) the chain is what it was, every buffer unchanged, with
    one more buffer linked after the last one; that buffer holds the bytes
    of the scalar and nothing else, and an invalid uncommitted cursor is
    set to it. *)
Theorem scalar_push_never_split (capacityBytes : nat) (q : comQueSend.t) :
  4 <= capacityBytes ->
  (forall value, exists q',
      comQueSend.pushUInt16 capacityBytes value q = Some q'
      /\ length (Wire.WireSet Wire.uint16 value) = 2
      /\ Spec.landedWhole capacityBytes Wire.uint16 value q q')
  /\ (forall value, exists q',
      comQueSend.pushUInt32 capacityBytes value q = Some q'
      /\ length (Wire.WireSet Wire.uint32 value) = 4
      /\ Spec.landedWhole capacityBytes Wire.uint32 value q q')
  /\ (forall value, exists q',
      comQueSend.pushFloat32 capacityBytes value q = Some q'
      /\ length (Wire.WireSet Wire.float32 value) = 4
      /\ Spec.landedWhole capacityBytes Wire.float32 value q q').
Proof.
  intros Hcap. repeat split; intros value.
  - destruct (push_spec capacityBytes _ Wire.uint16 value q) as [q' [H1 [H2 _]]];
      [simpl; lia|].
    exists q'. split; [exact H1|]. split; [reflexivity|].
    apply wroteWhole_landed. exact H2.
  - destruct (push_spec capacityBytes _ Wire.uint32 value q) as [q' [H1 [H2 _]]];
      [simpl; lia|].
    exists q'. split; [exact H1|]. split; [reflexivity|].
    apply wroteWhole_landed. exact H2.
  - destruct (push_spec capacityBytes _ Wire.float32 value q) as [q' [H1 [H2 _]]];
      [simpl; lia|].
    exists q'. split; [exact H1|]. split; [reflexivity|].
    apply wroteWhole_landed. exact H2.
Qed.

Lemma scalar_push_never_split_witness :
  4 <= 4
  /\ comQueSend.pushUInt32 4 16909060%Z Spec.threeQueued
     = Some {| comQueSend.bufs :=
                 [ {| comBuf.commitIndex := 3; comBuf.buf := [1; 2; 3]%Z |};
                   {| comBuf.commitIndex := 0; comBuf.buf := [1; 2; 3; 4]%Z |} ];
               comQueSend.pFirstUncommited := Some 1;
               comQueSend.nBytesPending := 3 |}
  /\ exists q',
       comQueSend.pushUInt32 4 16909060%Z Spec.threeQueued = Some q'
       /\ length (Wire.WireSet Wire.uint32 16909060%Z) = 4
       /\ Spec.landedWhole 4 Wire.uint32 16909060%Z Spec.threeQueued q'.
Proof.
  assert (H : 4 <= 4) by lia.
  split; [exact H|]. split; [reflexivity|].
  exact (proj1 (proj2 (scalar_push_never_split 4 Spec.threeQueued H))
           16909060%Z).
Defined.

(** ** The counter and the typed pushes *)

(** C1, as amended.  With a buffer capacity of at least 4 bytes, every typed
    push returns, leaves the value of [occupiedBytes] as it was, and
    increases the sum of the written offsets of the chain by the number of
    bytes it wrote: 2 for [pushUInt16], 4 for [pushUInt32] and
    [pushFloat32], the length of the string for [pushString]. *)
Theorem typed_push_counter (capacityBytes : nat) (q : comQueSend.t) :
  4 <= capacityBytes ->
  (forall value, exists q',
      comQueSend.pushUInt16 capacityBytes value q = Some q'
      /\ comQueSend.occupiedBytes q' = comQueSend.occupiedBytes q
      /\ comQueSend.chainBytes (comQueSend.bufs q')
         = (comQueSend.chainBytes (comQueSend.bufs q) + 2)%Z)
  /\ (forall value, exists q',
      comQueSend.pushUInt32 capacityBytes value q = Some q'
      /\ comQueSend.occupiedBytes q' = comQueSend.occupiedBytes q
      /\ comQueSend.chainBytes (comQueSend.bufs q')
         = (comQueSend.chainBytes (comQueSend.bufs q) + 4)%Z)
  /\ (forall value, exists q',
      comQueSend.pushFloat32 capacityBytes value q = Some q'
      /\ comQueSend.occupiedBytes q' = comQueSend.occupiedBytes q
      /\ comQueSend.chainBytes (comQueSend.bufs q')
         = (comQueSend.chainBytes (comQueSend.bufs q) + 4)%Z)
  /\ (forall pVal, exists q',
      comQueSend.pushString capacityBytes pVal q = Some q'
      /\ comQueSend.occupiedBytes q' = comQueSend.occupiedBytes q
      /\ comQueSend.chainBytes (comQueSend.bufs q')
         = (comQueSend.chainBytes (comQueSend.bufs q)
            + Z.of_nat (length pVal))%Z).
Proof.
  intros Hcap. repeat split.
  - intros value.
    destruct (push_spec capacityBytes _ Wire.uint16 value q)
      as [q' [H1 [_ [H3 H4]]]]; [simpl; lia|].
    exists q'. repeat split; [exact H1 | exact H4 |].
    rewrite !chainBytes_data, H3, length_app. simpl. lia.
  - intros value.
    destruct (push_spec capacityBytes _ Wire.uint32 value q)
      as [q' [H1 [_ [H3 H4]]]]; [simpl; lia|].
    exists q'. repeat split; [exact H1 | exact H4 |].
    rewrite !chainBytes_data, H3, length_app. simpl. lia.
  - intros value.
    destruct (push_spec capacityBytes _ Wire.float32 value q)
      as [q' [H1 [_ [H3 H4]]]]; [simpl; lia|].
    exists q'. repeat split; [exact H1 | exact H4 |].
    rewrite !chainBytes_data, H3, length_app. simpl. lia.
  - intros pVal.
    destruct (pushN_appends capacityBytes _ Wire.chars pVal q)
      as [q' [H1 [H3 H4]]].
    { cbn [Wire.sizeOf Wire.chars]. rewrite Nat.div_1_r. lia. }
    exists q'. repeat split; [exact H1 | exact H4 |].
    rewrite !chainBytes_data, H3, length_app.
    rewrite (wire_flat_map_length Wire.chars pVal chars_lawful). simpl. lia.
Qed.

Lemma typed_push_counter_witness :
  4 <= Spec.capacity16K
  /\ exists q',
       comQueSend.pushUInt16 Spec.capacity16K 258%Z comQueSend.empty = Some q'
       /\ comQueSend.occupiedBytes q' = comQueSend.occupiedBytes comQueSend.empty
       /\ comQueSend.chainBytes (comQueSend.bufs q')
          = (comQueSend.chainBytes (comQueSend.bufs comQueSend.empty) + 2)%Z.
Proof.
  assert (H : 4 <= Spec.capacity16K) by (vm_compute; lia).
  split; [exact H|].
  exact (proj1 (typed_push_counter Spec.capacity16K comQueSend.empty H) 258%Z).
Defined.

(** C1, as stated, fails at the first push: on the queue without buffers,
    where the counter and the chain agree on 0, [pushUInt16] writes two
    bytes and the counter stays 0. *)
Lemma typed_push_breaks_invariant :
  Spec.pendingMatchesChain comQueSend.empty
  /\ exists q',
       comQueSend.pushUInt16 Spec.capacity16K 258%Z comQueSend.empty = Some q'
       /\ comQueSend.bufs q' = [ Spec.holding [1; 2]%Z ]
       /\ comQueSend.occupiedBytes q' = 0%Z
       /\ comQueSend.chainBytes (comQueSend.bufs q') = 2%Z
       /\ ~ Spec.pendingMatchesChain q'
       /\ comQueSend.occupiedBytes q'
          <> (comQueSend.occupiedBytes comQueSend.empty + 2)%Z.
Proof.
  split; [reflexivity|].
  eexists. split; [vm_compute; reflexivity|].
  unfold Spec.pendingMatchesChain. cbn.
  repeat split; try reflexivity; discriminate.
Qed.

(** ** Chunking *)

Section Chunking.

Variable capacityBytes : nat.
Variable T : Type.
Variable W : Wire.format T.

Lemma perBuf_exact :
  0 < Wire.sizeOf W -> 0 < capacityBytes ->
  Nat.divide (Wire.sizeOf W) capacityBytes ->
  1 <= capacityBytes / Wire.sizeOf W
  /\ capacityBytes = capacityBytes / Wire.sizeOf W * Wire.sizeOf W.
Proof.
  intros Hs Hc [z Hz]. subst capacityBytes.
  rewrite Nat.div_mul by lia. split; [nia | reflexivity].
Qed.

Lemma freshBufs_count (l : list T) :
  0 < Wire.sizeOf W -> 0 < capacityBytes ->
  Nat.divide (Wire.sizeOf W) capacityBytes ->
  length (Spec.freshBufs W (capacityBytes / Wire.sizeOf W) l)
  = ceil_div (length l * Wire.sizeOf W) capacityBytes.
Proof.
  intros Hs Hc Hd. destruct (perBuf_exact Hs Hc Hd) as [He Hcap].
  unfold Spec.freshBufs. rewrite length_map, chunks_length by auto.
  rewrite Hcap at 2. rewrite ceil_div_scale by lia. reflexivity.
Qed.

Lemma freshBufs_data (l : list T) :
  1 <= capacityBytes / Wire.sizeOf W ->
  comQueSend.chainData (Spec.freshBufs W (capacityBytes / Wire.sizeOf W) l)
  = flat_map (Wire.WireSet W) l.
Proof.
  intros He. unfold comQueSend.chainData, Spec.freshBufs.
  rewrite map_map.
  cbn [Spec.holding Spec.appendTo comBuf.buf comBuf.fresh app].
  rewrite flat_map_concat_pieces, chunks_concat by (auto; lia).
  reflexivity.
Qed.

(** C2.  The element size divides the (positive) buffer capacity.  The
    array push returns.  On a chain that starts empty it creates exactly
    ceil(nElem_bytes / capacity_bytes) buffers, the bytes of the chain are
    the encoded elements in their order, and the array splits into pieces
    of whole elements of which each buffer holds one.  On a chain with a
    last buffer, that buffer first takes as many of the leading elements
    as it has room for, and new buffers are created for the remaining
    elements only. *)
Theorem chunked_push (pVal : list T) (q : comQueSend.t) :
  Wire.lawful W ->
  0 < capacityBytes ->
  Nat.divide (Wire.sizeOf W) capacityBytes ->
  exists q',
    comQueSend.pushN capacityBytes W pVal q = Some q'
    /\ (comQueSend.bufs q = [] ->
        length (comQueSend.bufs q')
        = ceil_div (length pVal * Wire.sizeOf W) capacityBytes
        /\ comQueSend.chainData (comQueSend.bufs q')
           = flat_map (Wire.WireSet W) pVal
        /\ exists pieces,
             concat pieces = pVal
             /\ map comBuf.buf (comQueSend.bufs q')
                = map (flat_map (Wire.WireSet W)) pieces)
    /\ (forall front tail,
           comQueSend.bufs q = front ++ [tail] ->
           let n := Nat.min (length pVal) (Spec.room capacityBytes W tail) in
           exists new,
             comQueSend.bufs q'
             = front
                 ++ [Spec.appendTo tail
                       (flat_map (Wire.WireSet W) (firstn n pVal))]
                 ++ new
             /\ length new
                = ceil_div ((length pVal - n) * Wire.sizeOf W) capacityBytes
             /\ comQueSend.chainData new
                = flat_map (Wire.WireSet W) (skipn n pVal)).
Proof.
  intros [Hs HW] Hc Hd. destruct (perBuf_exact Hs Hc Hd) as [He _].
  destruct (splitLast (comQueSend.bufs q)) as [[front tail]|] eqn:E.
  - apply splitLast_Some in E.
    eexists. split; [apply (pushN_tail capacityBytes T W pVal q front tail He E)|].
    split.
    + intros Hnil. rewrite Hnil in E. destruct front; discriminate.
    + intros front' tail' E' n. rewrite E in E'.
      apply app_inj_tail in E'. destruct E' as [<- <-].
      exists (Spec.freshBufs W (capacityBytes / Wire.sizeOf W) (skipn n pVal)).
      rewrite appendBufs_bufs. cbn [comQueSend.with_bufs comQueSend.bufs].
      split; [rewrite <- app_assoc; reflexivity|].
      split.
      * rewrite freshBufs_count by auto. rewrite length_skipn. reflexivity.
      * apply freshBufs_data. exact He.
  - apply splitLast_None in E.
    eexists. split; [apply (pushN_empty capacityBytes T W pVal q He E)|].
    rewrite appendBufs_bufs, E. cbn [app].
    split.
    + intros _. split; [apply freshBufs_count; auto|].
      split; [apply freshBufs_data; exact He|].
      exists (chunks (length pVal) (capacityBytes / Wire.sizeOf W) pVal).
      split; [apply chunks_concat; auto|].
      unfold Spec.freshBufs. rewrite map_map. reflexivity.
    + intros front tail E'. destruct front; discriminate.
Qed.

End Chunking.

Lemma chunked_push_witness :
  Wire.lawful Wire.uint32
  /\ 0 < 8
  /\ Nat.divide (Wire.sizeOf Wire.uint32) 8
  /\ exists q',
       comQueSend.pushN 8 Wire.uint32 [1; 2; 3]%Z comQueSend.empty = Some q'
       /\ (comQueSend.bufs comQueSend.empty = [] ->
           length (comQueSend.bufs q')
           = ceil_div (length [1; 2; 3]%Z * Wire.sizeOf Wire.uint32) 8
           /\ comQueSend.chainData (comQueSend.bufs q')
              = flat_map (Wire.WireSet Wire.uint32) [1; 2; 3]%Z
           /\ exists pieces,
                concat pieces = [1; 2; 3]%Z
                /\ map comBuf.buf (comQueSend.bufs q')
                   = map (flat_map (Wire.WireSet Wire.uint32)) pieces).
Proof.
  assert (Hd : Nat.divide (Wire.sizeOf Wire.uint32) 8) by (exists 2; reflexivity).
  assert (Hc : 0 < 8) by lia.
  split; [exact uint32_lawful|]. split; [exact Hc|]. split; [exact Hd|].
  destruct (chunked_push 8 _ Wire.uint32 [1; 2; 3]%Z comQueSend.empty
              uint32_lawful Hc Hd) as [q' [H1 [H2 _]]].
  exists q'. split; [exact H1 | exact H2].
Defined.

(** ** Framing *)

Lemma clearUncommittedIncomming_settled (b : comBuf.t) :
  comBuf.settled b -> comBuf.clearUncommittedIncomming b = b.
Proof.
  unfold comBuf.settled, comBuf.uncommittedBytes, comBuf.nextWriteIndex,
    comBuf.clearUncommittedIncomming.
  destruct b as [c bytes]. cbn [comBuf.commitIndex comBuf.buf].
  intros [Hu _]. f_equal. apply firstn_all2. lia.
Qed.

Lemma settled_nonEmpty (b : comBuf.t) :
  comBuf.settled b -> comQueSend.nonEmpty b = true.
Proof.
  unfold comBuf.settled, comQueSend.nonEmpty. intros [_ Hn].
  destruct (Nat.eqb_spec (comBuf.nextWriteIndex b) 0); [lia | reflexivity].
Qed.

Lemma clearUncommittedIncomming_kept (b : comBuf.t) :
  comQueSend.nonEmpty (comBuf.clearUncommittedIncomming b) = true ->
  comBuf.settled (comBuf.clearUncommittedIncomming b).
Proof.
  unfold comBuf.settled, comQueSend.nonEmpty, comBuf.uncommittedBytes,
    comBuf.nextWriteIndex, comBuf.clearUncommittedIncomming.
  cbn [comBuf.commitIndex comBuf.buf]. rewrite length_firstn.
  destruct (Nat.eqb_spec (Nat.min (comBuf.commitIndex b) (length (comBuf.buf b))) 0);
    [discriminate|].
  intros _. lia.
Qed.

Lemma kept_settled (l : list comBuf.t) :
  Forall comBuf.settled
    (filter comQueSend.nonEmpty (map comBuf.clearUncommittedIncomming l)).
Proof.
  apply Forall_forall. intros b Hin.
  apply filter_In in Hin. destruct Hin as [Hin Hne].
  apply in_map_iff in Hin. destruct Hin as [b0 [<- _]].
  apply clearUncommittedIncomming_kept. exact Hne.
Qed.

Lemma clearUncommitted_invalid (q : comQueSend.t) :
  comQueSend.pFirstUncommited q = None -> comQueSend.clearUncommitted q = q.
Proof. unfold comQueSend.clearUncommitted. intros ->. reflexivity. Qed.

Lemma clearUncommitted_cursor (q : comQueSend.t) :
  comQueSend.pFirstUncommited (comQueSend.clearUncommitted q) = None.
Proof.
  unfold comQueSend.clearUncommitted.
  destruct (comQueSend.pFirstUncommited q) eqn:E; [reflexivity | exact E].
Qed.

Lemma beginMsg_unfold (q : comQueSend.t) :
  comQueSend.beginMsg q
  = {| comQueSend.bufs := comQueSend.bufs (comQueSend.clearUncommitted q);
       comQueSend.pFirstUncommited :=
         comQueSend.lastIter (comQueSend.bufs (comQueSend.clearUncommitted q));
       comQueSend.nBytesPending :=
         comQueSend.nBytesPending (comQueSend.clearUncommitted q) |}.
Proof.
  unfold comQueSend.beginMsg.
  destruct (comQueSend.pFirstUncommited q) as [i|] eqn:E; cbn [comQueSend.valid].
  - reflexivity.
  - rewrite (clearUncommitted_invalid q E). reflexivity.
Qed.

(** What [beginMsg] leaves of a disciplined queue is settled throughout,
    and the counter holds a value of its type. *)
Lemma cleared_settled (q : comQueSend.t) :
  Spec.disciplined q ->
  Forall comBuf.settled (comQueSend.bufs (comQueSend.clearUncommitted q))
  /\ Spec.pendingInRange (comQueSend.clearUncommitted q).
Proof.
  unfold Spec.disciplined, Spec.committedPart, Spec.pendingInRange,
    comQueSend.clearUncommitted.
  intros [Hr Hs].
  destruct (comQueSend.pFirstUncommited q) as [i|]; [|auto].
  cbn [comQueSend.bufs comQueSend.nBytesPending]. split.
  - apply Forall_app. split; [exact Hs | apply kept_settled].
  - apply u32_range.
Qed.

Lemma clearUncommitted_last_settled (q : comQueSend.t) front tail :
  comQueSend.bufs q = front ++ [tail] ->
  comQueSend.pFirstUncommited q = Some (length front) ->
  comBuf.settled tail ->
  Spec.pendingInRange q ->
  comQueSend.clearUncommitted q
  = {| comQueSend.bufs := comQueSend.bufs q;
       comQueSend.pFirstUncommited := None;
       comQueSend.nBytesPending := comQueSend.nBytesPending q |}.
Proof.
  intros Hb Hc Hs Hr. unfold comQueSend.clearUncommitted. rewrite Hc, Hb.
  rewrite firstn_app, Nat.sub_diag, firstn_all, firstn_O, app_nil_r.
  rewrite skipn_app, Nat.sub_diag, skipn_all. cbn [app skipn map filter list_sum].
  rewrite (clearUncommittedIncomming_settled tail Hs).
  rewrite (settled_nonEmpty tail Hs).
  destruct Hs as [Hu _]. rewrite Hu. cbn [Nat.add Z.of_nat].
  rewrite Z.sub_0_r, u32_small by exact Hr. reflexivity.
Qed.

(** C4, as amended.  [beginMsg] first discards what awaits a commit: with a
    valid cursor at position [i] the buffers in front of [i] stay, those
    from [i] on are cut back to their committed offset and dropped when
    nothing is left of them, so that none of them holds an uncommitted byte;
    with an invalid cursor nothing is discarded.  Then the cursor is set to
    the last buffer of the chain.  On a disciplined queue (no byte awaits a
    commit in front of the cursor) a second [beginMsg] right after the first
    changes nothing. *)
Theorem beginMsg_discards_then_marks (q : comQueSend.t) :
  (forall i, comQueSend.pFirstUncommited q = Some i ->
     comQueSend.bufs (comQueSend.beginMsg q)
     = firstn i (comQueSend.bufs q)
         ++ filter comQueSend.nonEmpty
              (map comBuf.clearUncommittedIncomming (skipn i (comQueSend.bufs q)))
     /\ Forall comBuf.settled
          (filter comQueSend.nonEmpty
             (map comBuf.clearUncommittedIncomming (skipn i (comQueSend.bufs q)))))
  /\ (comQueSend.pFirstUncommited q = None ->
      comQueSend.bufs (comQueSend.beginMsg q) = comQueSend.bufs q
      /\ comQueSend.occupiedBytes (comQueSend.beginMsg q)
         = comQueSend.occupiedBytes q)
  /\ comQueSend.pFirstUncommited (comQueSend.beginMsg q)
     = comQueSend.lastIter (comQueSend.bufs (comQueSend.beginMsg q))
  /\ (Spec.disciplined q ->
      comQueSend.beginMsg (comQueSend.beginMsg q) = comQueSend.beginMsg q).
Proof.
  split; [|split; [|split]].
  - intros i Hi. split; [|apply kept_settled].
    unfold comQueSend.beginMsg, comQueSend.clearUncommitted.
    rewrite Hi. reflexivity.
  - intros Hn. unfold comQueSend.beginMsg. rewrite Hn. split; reflexivity.
  - reflexivity.
  - intros Hd. destruct (cleared_settled q Hd) as [Hs Hr].
    rewrite (beginMsg_unfold q).
    set (q1 := comQueSend.clearUncommitted q) in *.
    rewrite beginMsg_unfold.
    destruct (splitLast (comQueSend.bufs q1)) as [[front tail]|] eqn:E.
    + apply splitLast_Some in E.
      assert (Htail : comBuf.settled tail).
      { rewrite E in Hs. apply Forall_app in Hs. destruct Hs as [_ Hs].
        inversion Hs; assumption. }
      rewrite (clearUncommitted_last_settled _ front tail); cbn [comQueSend.bufs
        comQueSend.pFirstUncommited comQueSend.nBytesPending];
        [reflexivity | exact E | rewrite E; apply lastIter_snoc
        | exact Htail | exact Hr].
    + apply splitLast_None in E.
      rewrite clearUncommitted_invalid;
        cbn [comQueSend.bufs comQueSend.pFirstUncommited comQueSend.nBytesPending];
        [reflexivity | rewrite E; reflexivity].
Qed.

Lemma beginMsg_discards_then_marks_witness :
  Spec.disciplined Spec.oneByteQueued
  /\ comQueSend.beginMsg (comQueSend.beginMsg Spec.oneByteQueued)
     = comQueSend.beginMsg Spec.oneByteQueued.
Proof.
  assert (H : Spec.disciplined Spec.oneByteQueued).
  { split; [vm_compute; split; congruence|].
    repeat constructor. }
  split; [exact H|].
  exact (proj2 (proj2 (proj2 (beginMsg_discards_then_marks Spec.oneByteQueued))) H).
Defined.

(** C4, as stated, fails when bytes were pushed with no message open: the
    queue reached by [beginMsg], [pushUInt32], [commitMsg], [pushUInt16]
    keeps its six bytes through one [beginMsg] and loses two of them in a
    second one. *)
Lemma beginMsg_twice_differs :
  match comQueSend.pushUInt32 Spec.capacity16K 1%Z
          (comQueSend.beginMsg comQueSend.empty) with
  | Some q => comQueSend.pushUInt16 Spec.capacity16K 2%Z (comQueSend.commitMsg q)
  | None => None
  end = Some Spec.toppedUpAfterCommit
  /\ comQueSend.chainBytes
       (comQueSend.bufs (comQueSend.beginMsg Spec.toppedUpAfterCommit)) = 6%Z
  /\ comQueSend.chainBytes
       (comQueSend.bufs
          (comQueSend.beginMsg (comQueSend.beginMsg Spec.toppedUpAfterCommit)))
     = 4%Z
  /\ comQueSend.beginMsg (comQueSend.beginMsg Spec.toppedUpAfterCommit)
     <> comQueSend.beginMsg Spec.toppedUpAfterCommit.
Proof.
  split; [vm_compute; reflexivity|].
  split; [vm_compute; reflexivity|].
  split; [vm_compute; reflexivity|].
  intros H.
  apply (f_equal (fun q => comQueSend.chainBytes (comQueSend.bufs q))) in H.
  vm_compute in H. discriminate.
Qed.

(** ** Draining *)








(** ** Request composition *)

Lemma CA_MESSAGE_ALIGN_le (size : Z) : (size <= comQueSend.CA_MESSAGE_ALIGN size)%Z.
Proof.
  unfold comQueSend.CA_MESSAGE_ALIGN.
  pose proof (Z.div_mod (size + 7) 8 ltac:(lia)).
  pose proof (Z.mod_pos_bound (size + 7) 8 ltac:(lia)).
  lia.
Qed.

Section RequestComposition.

Variable capacityBytes : nat.
Variable dbrCopyVector : list (option comQueSend.copyFunc_t).
Variable dbr_size : nat -> Z.
Variable compactMax : Z.
Variable extendedSentinel : Z.

Let insertRequestWithPayLoad :=
  comQueSend.insertRequestWithPayLoad capacityBytes dbrCopyVector dbr_size
    compactMax extendedSentinel.

Lemma insertRequestHeader_rejects request payloadSize dataType nElem cid
    requestDependent (q : comQueSend.t) :
  (compactMax < payloadSize \/ compactMax < nElem)%Z ->
  comQueSend.insertRequestHeader capacityBytes compactMax extendedSentinel
    request payloadSize dataType nElem cid requestDependent false q
  = (comQueSend.Throw comQueSend.outOfBounds, q).
Proof.
  intros Hbig. unfold comQueSend.insertRequestHeader.
  replace ((payloadSize <=? compactMax) && (nElem <=? compactMax))%Z
    with false; [reflexivity|].
  symmetry. apply andb_false_iff. rewrite !Z.leb_gt. exact Hbig.
Qed.

(** C3.  With a data type at or past the 39 entries of the dispatch table,
    or one whose entry is null, [insertRequestWithPayLoad] throws the
    bad-type error and the queue is as before the call.  With a valid
    data type, extended headers disallowed and a payload of more than
    65535 bytes (no compact field carries more than that), it throws the
    out-of-bounds error and the queue is as before the call: nothing was
    written, [occupiedBytes] is unchanged. *)
Theorem insertRequestWithPayLoad_rejects (q : comQueSend.t)
    (request : Wire.ca_uint16_t) (dataType : nat)
    (nElem cid requestDependent : Wire.ca_uint32_t)
    (pPayload : list Wire.byte) (v49Ok : bool) :
  (39 <= dataType \/ nth_error dbrCopyVector dataType = Some None ->
   insertRequestWithPayLoad request dataType nElem cid requestDependent
     pPayload v49Ok q
   = (comQueSend.Throw comQueSend.badType, q))
  /\ (comQueSend.dbr_type_ok dbrCopyVector dataType = true ->
      (compactMax <= 65535)%Z ->
      (65535 < dbr_size dataType * nElem)%Z ->
      insertRequestWithPayLoad request dataType nElem cid requestDependent
        pPayload false q
      = (comQueSend.Throw comQueSend.outOfBounds, q)).
Proof.
  split.
  - intros Hbad.
    unfold insertRequestWithPayLoad, comQueSend.insertRequestWithPayLoad.
    replace (comQueSend.dbr_type_ok dbrCopyVector dataType) with false;
      [reflexivity|].
    symmetry. unfold comQueSend.dbr_type_ok.
    destruct (Nat.leb_spec comQueSend.dbrCopyVectorSize dataType) as [_|Hlt];
      [reflexivity|].
    destruct Hbad as [Hge|Hnull].
    + unfold comQueSend.dbrCopyVectorSize in Hlt. lia.
    + rewrite Hnull. reflexivity.
  - intros Hok Hmax Hbig.
    unfold insertRequestWithPayLoad, comQueSend.insertRequestWithPayLoad.
    rewrite Hok. cbn [negb]. unfold comQueSend.bind at 1.
    rewrite insertRequestHeader_rejects; [reflexivity|].
    left. pose proof (CA_MESSAGE_ALIGN_le (dbr_size dataType * nElem)). lia.
Qed.

End RequestComposition.

Lemma insertRequestWithPayLoad_rejects_witness :
  (39 <= 40 \/ nth_error (Spec.sevenRoutines Spec.capacity16K) 40 = Some None)
  /\ comQueSend.insertRequestWithPayLoad Spec.capacity16K
       (Spec.sevenRoutines Spec.capacity16K) (fun _ => 8%Z) 65535 65535
       1%Z 40 1%Z 0%Z 0%Z [] true Spec.oneByteQueued
     = (comQueSend.Throw comQueSend.badType, Spec.oneByteQueued)
  /\ comQueSend.dbr_type_ok (Spec.sevenRoutines Spec.capacity16K) 6 = true
  /\ (65535 <= 65535)%Z
  /\ (65535 < 8 * 10000)%Z
  /\ comQueSend.insertRequestWithPayLoad Spec.capacity16K
       (Spec.sevenRoutines Spec.capacity16K) (fun _ => 8%Z) 65535 65535
       1%Z 6 10000%Z 0%Z 0%Z [] false Spec.oneByteQueued
     = (comQueSend.Throw comQueSend.outOfBounds, Spec.oneByteQueued).
Proof.
  assert (H1 : 39 <= 40 \/ nth_error (Spec.sevenRoutines Spec.capacity16K) 40
                           = Some None) by (left; lia).
  assert (H2 : comQueSend.dbr_type_ok (Spec.sevenRoutines Spec.capacity16K) 6
               = true) by reflexivity.
  assert (H3 : (65535 <= 65535)%Z) by lia.
  assert (H4 : (65535 < 8 * 10000)%Z) by lia.
  split; [exact H1|].
  split; [exact (proj1 (insertRequestWithPayLoad_rejects Spec.capacity16K
                   (Spec.sevenRoutines Spec.capacity16K) (fun _ => 8%Z) 65535 65535
                   Spec.oneByteQueued 1%Z 40 1%Z 0%Z 0%Z [] true) H1)|].
  split; [exact H2|]. split; [exact H3|]. split; [exact H4|].
  exact (proj2 (insertRequestWithPayLoad_rejects Spec.capacity16K
                  (Spec.sevenRoutines Spec.capacity16K) (fun _ => 8%Z) 65535 65535
                  Spec.oneByteQueued 1%Z 6 10000%Z 0%Z 0%Z [] false) H2 H3 H4).
Defined.

(** ** Address discovery *)

Section Discovery.

Variable htonl : Z -> Z.
Variable htons : Z -> Z.

Lemma scanIfreq_skipped (l : list osdNetIfConf.ifreq) :
  forallb osdNetIfConf.skipped l = true ->
  fst (osdNetIfConf.scanIfreq l) = None.
Proof.
  induction l as [|r l IH]; [reflexivity|].
  cbn [forallb osdNetIfConf.scanIfreq]. unfold osdNetIfConf.skipped at 1.
  intros H. apply andb_true_iff in H. destruct H as [Hr Hl].
  specialize (IH Hl).
  destruct (negb (osdNetIfConf.sa_family (osdNetIfConf.ifr_addr r)
                  =? osdNetIfConf.AF_INET)%Z); [exact IH|].
  destruct (osdNetIfConf.ifr_flags_status r <? 0)%Z.
  { destruct (osdNetIfConf.scanIfreq l) as [found log]. exact IH. }
  destruct (negb (osdNetIfConf.flagSet (osdNetIfConf.ifr_flags r)
                    osdNetIfConf.IFF_UP)); [exact IH|].
  destruct (osdNetIfConf.flagSet (osdNetIfConf.ifr_flags r)
              osdNetIfConf.IFF_LOOPBACK); [exact IH|].
  discriminate.
Qed.

Lemma osiLocalAddrOnce_fallback (calloc_ok : bool) (os : osdNetIfConf.ifconf) :
  calloc_ok = false
  \/ (osdNetIfConf.ifc_status os < 0)%Z
  \/ osdNetIfConf.ifc_len os = 0%Z
  \/ forallb osdNetIfConf.skipped (osdNetIfConf.ifc_req os) = true ->
  fst (osdNetIfConf.osiLocalAddrOnce htonl calloc_ok os)
  = osdNetIfConf.loopback htonl
  /\ snd (osdNetIfConf.osiLocalAddrOnce htonl calloc_ok os) <> [].
Proof.
  intros H. unfold osdNetIfConf.osiLocalAddrOnce.
  destruct calloc_ok; cbn [negb]; [|split; [reflexivity | discriminate]].
  destruct ((osdNetIfConf.ifc_status os <? 0)%Z
            || (osdNetIfConf.ifc_len os =? 0)%Z) eqn:E;
    [split; [reflexivity | discriminate]|].
  apply orb_false_iff in E. destruct E as [E1 E2].
  apply Z.ltb_ge in E1. apply Z.eqb_neq in E2.
  destruct H as [H|[H|[H|H]]]; [discriminate | lia | contradiction |].
  apply scanIfreq_skipped in H.
  destruct (osdNetIfConf.scanIfreq (osdNetIfConf.ifc_req os)) as [found log].
  cbn [fst] in H. subst found. split; [reflexivity|].
  cbn [snd]. intros Hnil. apply app_eq_nil in Hnil.
  destruct Hnil as [_ Hnil]. discriminate.
Qed.

(** C8, as amended.  [osiLocalAddr], on its first call, hands back the
    IPv4 loopback address and logs a message when the scan fails: the
    request list cannot be allocated, the SIOCGIFCONF ioctl fails or
    answers with length 0, or every interface listed is passed over (not
    an internet interface, flags not fetched, down, or loopback).
    [osiSockDiscoverBroadcastAddresses], when [getifaddrs] fails and the
    match address is not the loopback address, logs a message and leaves
    the caller's list as it was: it adds no address. *)
Theorem discovery_on_failure :
  (forall (calloc_ok : bool) (os : osdNetIfConf.ifconf),
      calloc_ok = false
      \/ (osdNetIfConf.ifc_status os < 0)%Z
      \/ osdNetIfConf.ifc_len os = 0%Z
      \/ forallb osdNetIfConf.skipped (osdNetIfConf.ifc_req os) = true ->
      exists log,
        osdNetIfConf.osiLocalAddr htonl None calloc_ok os
        = (osdNetIfConf.loopback htonl,
           Some (osdNetIfConf.loopback htonl), log)
        /\ log <> [])
  /\ (forall (calloc : nat -> bool) (getifaddrs_result : Z)
             (ifaddr : list osdNetIfConf.ifaddrs)
             (pList : list osdNetIfConf.osiSockAddr)
             (pMatchAddr : osdNetIfConf.osiSockAddr),
        getifaddrs_result <> 0%Z ->
        (osdNetIfConf.sa_family pMatchAddr <> osdNetIfConf.AF_INET
         \/ osdNetIfConf.s_addr pMatchAddr
            <> htonl osdNetIfConf.INADDR_LOOPBACK) ->
        exists log,
          osdNetIfConf.osiSockDiscoverBroadcastAddresses htonl htons calloc
            getifaddrs_result ifaddr pList pMatchAddr
          = Some (pList, log)
          /\ log <> []).
Proof.
  split.
  - intros calloc_ok os H.
    destruct (osiLocalAddrOnce_fallback calloc_ok os H) as [Haddr Hlog].
    unfold osdNetIfConf.osiLocalAddr.
    destruct (osdNetIfConf.osiLocalAddrOnce htonl calloc_ok os) as [result log].
    cbn [fst snd] in *. subst result. exists log. split; [reflexivity | exact Hlog].
  - intros calloc result ifaddr pList pMatchAddr Hres Hmatch.
    unfold osdNetIfConf.osiSockDiscoverBroadcastAddresses.
    replace ((osdNetIfConf.sa_family pMatchAddr =? osdNetIfConf.AF_INET)%Z
             && (osdNetIfConf.s_addr pMatchAddr
                 =? htonl osdNetIfConf.INADDR_LOOPBACK)%Z) with false.
    + destruct (Z.eqb_spec result 0) as [->|_]; [contradiction|].
      cbn [negb]. eexists. split; [reflexivity | discriminate].
    + symmetry. apply andb_false_iff.
      destruct Hmatch as [Hm|Hm]; [left | right]; apply Z.eqb_neq; exact Hm.
Qed.

End Discovery.

Lemma discovery_on_failure_witness :
  forallb osdNetIfConf.skipped (osdNetIfConf.ifc_req Spec.onlyLo) = true
  /\ (exists log,
        osdNetIfConf.osiLocalAddr (fun x => x) None true Spec.onlyLo
        = (osdNetIfConf.loopback (fun x => x),
           Some (osdNetIfConf.loopback (fun x => x)), log)
        /\ log <> [])
  /\ (-1 <> 0)%Z
  /\ (osdNetIfConf.sa_family Spec.anyInterface <> osdNetIfConf.AF_INET
      \/ osdNetIfConf.s_addr Spec.anyInterface
         <> (fun x : Z => x) osdNetIfConf.INADDR_LOOPBACK)
  /\ exists log,
       osdNetIfConf.osiSockDiscoverBroadcastAddresses (fun x => x) (fun x => x)
         (fun _ => true) (-1) [] [] Spec.anyInterface
       = Some ([], log)
       /\ log <> [].
Proof.
  assert (H1 : forallb osdNetIfConf.skipped (osdNetIfConf.ifc_req Spec.onlyLo)
               = true) by reflexivity.
  assert (H2 : (-1 <> 0)%Z) by discriminate.
  assert (H3 : osdNetIfConf.sa_family Spec.anyInterface <> osdNetIfConf.AF_INET
               \/ osdNetIfConf.s_addr Spec.anyInterface
                  <> (fun x : Z => x) osdNetIfConf.INADDR_LOOPBACK)
    by (right; discriminate).
  split; [exact H1|].
  split; [exact (proj1 (discovery_on_failure (fun x => x) (fun x => x))
                   true Spec.onlyLo (or_intror (or_intror (or_intror H1))))|].
  split; [exact H2|]. split; [exact H3|].
  exact (proj2 (discovery_on_failure (fun x => x) (fun x => x))
           (fun _ => true) (-1)%Z [] [] Spec.anyInterface H2 H3).
Defined.

(** C8, as stated, fails for the broadcast address discovery: when
    [getifaddrs] fails, the list handed back is the caller's list, here the
    empty one, and the loopback address is not in it. *)
Lemma broadcast_discovery_no_fallback :
  exists handedBack log,
    osdNetIfConf.osiSockDiscoverBroadcastAddresses (fun x => x) (fun x => x)
      (fun _ => true) (-1) [] [] Spec.anyInterface
    = Some (handedBack, log)
    /\ handedBack = []
    /\ ~ In (osdNetIfConf.loopback (fun x => x)) handedBack.
Proof.
  eexists. eexists. split; [reflexivity|].
  split; [reflexivity | intros H; exact H].
Qed.


(** * Further properties of the send queue *)

Lemma appendTo_nil (b : comBuf.t) : Spec.appendTo b [] = b.
Proof.
  destruct b as [c bytes]. unfold Spec.appendTo.
  cbn [comBuf.commitIndex comBuf.buf]. rewrite app_nil_r. reflexivity.
Qed.

Lemma with_bufs_same (q : comQueSend.t) :
  comQueSend.with_bufs q (comQueSend.bufs q) = q.
Proof. destruct q; reflexivity. Qed.

Lemma topUp_snoc (q : comQueSend.t) front tail extra :
  comQueSend.bufs q = front ++ [tail] ->
  Script.topUp q extra
  = comQueSend.with_bufs q (front ++ [Spec.appendTo tail extra]).
Proof. intros Hb. unfold Script.topUp. rewrite Hb, splitLast_app. reflexivity. Qed.

Lemma topUp_empty (q : comQueSend.t) extra :
  comQueSend.bufs q = [] -> Script.topUp q extra = q.
Proof. intros Hb. unfold Script.topUp. rewrite Hb. reflexivity. Qed.

Lemma topUp_nil (q : comQueSend.t) : Script.topUp q [] = q.
Proof.
  unfold Script.topUp.
  destruct (splitLast (comQueSend.bufs q)) as [[front tail]|] eqn:E;
    [|reflexivity].
  apply splitLast_Some in E. rewrite appendTo_nil, <- E.
  apply with_bufs_same.
Qed.

Lemma chunks_pieces {A} (fuel e : nat) (l : list A) :
  1 <= e ->
  Forall (fun piece => 1 <= length piece <= e) (chunks fuel e l).
Proof.
  intros He. revert l. induction fuel as [|fuel IH]; intros l;
    [constructor|].
  destruct l as [|x l']; [constructor|].
  rewrite chunks_cons by (cbn [length]; lia).
  constructor; [|apply IH].
  rewrite length_firstn. cbn [length]. lia.
Qed.

Section PushOutcome.

Variable capacityBytes : nat.
Variable T : Type.
Variable W : Wire.format T.

Lemma push_none (val : T) (q : comQueSend.t) :
  capacityBytes < Wire.sizeOf W ->
  comQueSend.push capacityBytes W val q = None.
Proof.
  intros Hbig. unfold comQueSend.push, comBuf.push.
  replace (capacityBytes - comBuf.nextWriteIndex comBuf.fresh)
    with capacityBytes by (cbn; lia).
  destruct (Nat.leb_spec (Wire.sizeOf W) capacityBytes); [lia|].
  destruct (splitLast (comQueSend.bufs q)) as [[front tail]|]; [|reflexivity].
  destruct (Nat.leb_spec (Wire.sizeOf W)
              (capacityBytes - comBuf.nextWriteIndex tail)); [lia|].
  reflexivity.
Qed.

Lemma pushLoop_stuck (fuel : nat) (pVal : list T) :
  capacityBytes / Wire.sizeOf W = 0 ->
  forall (nCopied : nat) (q : comQueSend.t),
    nCopied < length pVal ->
    comQueSend.pushLoop capacityBytes fuel W pVal nCopied q = None.
Proof.
  intros He. induction fuel as [|fuel IH]; intros nCopied q Hlt;
    cbn [comQueSend.pushLoop];
    destruct (Nat.ltb_spec nCopied (length pVal)); try lia; [reflexivity|].
  cbv beta iota zeta delta [comBuf.pushN].
  replace (capacityBytes - comBuf.nextWriteIndex comBuf.fresh)
    with capacityBytes by (cbn; lia).
  rewrite He, Nat.min_0_r, Nat.add_0_r. apply IH. exact Hlt.
Qed.

Lemma pushN_nil (q : comQueSend.t) :
  comQueSend.pushN capacityBytes W [] q = Some q.
Proof.
  unfold comQueSend.pushN.
  destruct (splitLast (comQueSend.bufs q)) as [[front tail]|] eqn:E.
  - apply splitLast_Some in E.
    cbv beta iota zeta delta [comBuf.pushN]. cbn [length Nat.min firstn flat_map].
    fold (Spec.appendTo tail []). rewrite appendTo_nil, <- E, with_bufs_same.
    reflexivity.
  - reflexivity.
Qed.

Lemma pushN_none (pVal : list T) (q : comQueSend.t) :
  0 < Wire.sizeOf W ->
  capacityBytes < Wire.sizeOf W ->
  pVal <> [] ->
  comQueSend.pushN capacityBytes W pVal q = None.
Proof.
  intros Hs Hbig Hne.
  assert (Hlen : 0 < length pVal) by (destruct pVal; [congruence | simpl; lia]).
  assert (He : capacityBytes / Wire.sizeOf W = 0) by (apply Nat.div_small; lia).
  unfold comQueSend.pushN.
  destruct (splitLast (comQueSend.bufs q)) as [[front tail]|] eqn:E.
  - cbv beta iota zeta delta [comBuf.pushN].
    rewrite (Nat.div_small (capacityBytes - comBuf.nextWriteIndex tail)) by lia.
    rewrite Nat.min_0_r. apply pushLoop_stuck; assumption.
  - apply pushLoop_stuck; assumption.
Qed.

End PushOutcome.

(** X4.  The scalar push fails its assertion exactly when the scalar is
    wider than a buffer, whatever the queue; and the loop of the array push
    does not end exactly when there is an element to push and the element
    is wider than a buffer. *)
Theorem push_returns_iff (capacityBytes : nat) (T : Type) (W : Wire.format T)
    (q : comQueSend.t) :
  Wire.lawful W ->
  (forall val,
      comQueSend.push capacityBytes W val q = None
      <-> capacityBytes < Wire.sizeOf W)
  /\ (forall pVal,
      comQueSend.pushN capacityBytes W pVal q = None
      <-> pVal <> [] /\ capacityBytes < Wire.sizeOf W).
Proof.
  intros [Hs HW]. split.
  - intros val. split; [|apply push_none].
    intros Hnone.
    destruct (Nat.le_gt_cases (Wire.sizeOf W) capacityBytes) as [Hle|Hgt];
      [|exact Hgt].
    destruct (push_spec capacityBytes T W val q Hle) as [q' [Hsome _]].
    congruence.
  - intros pVal. split.
    + intros Hnone. split.
      * intros ->. rewrite pushN_nil in Hnone. discriminate.
      * destruct (Nat.le_gt_cases (Wire.sizeOf W) capacityBytes) as [Hle|Hgt];
          [|exact Hgt].
        assert (He : 1 <= capacityBytes / Wire.sizeOf W)
          by (apply Nat.div_le_lower_bound; lia).
        destruct (pushN_appends capacityBytes T W pVal q He) as [q' [Hsome _]].
        congruence.
    + intros [Hne Hbig]. apply pushN_none; assumption.
Qed.

Lemma push_returns_iff_witness :
  Wire.lawful Wire.uint32
  /\ (comQueSend.push 2 Wire.uint32 7%Z comQueSend.empty = None
      <-> 2 < Wire.sizeOf Wire.uint32)
  /\ (comQueSend.pushN 2 Wire.uint32 [7%Z] comQueSend.empty = None
      <-> [7%Z] <> [] /\ 2 < Wire.sizeOf Wire.uint32).
Proof.
  split; [exact uint32_lawful|].
  split.
  - exact (proj1 (push_returns_iff 2 _ Wire.uint32 comQueSend.empty
                    uint32_lawful) 7%Z).
  - exact (proj2 (push_returns_iff 2 _ Wire.uint32 comQueSend.empty
                    uint32_lawful) [7%Z]).
Defined.

(** X3.  Pushing a string of no characters returns and leaves the queue
    exactly as it was, whatever the queue and the buffer capacity: no
    buffer is allocated, not even on a queue without buffers. *)
Theorem pushString_nothing (capacityBytes : nat) (q : comQueSend.t) :
  comQueSend.pushString capacityBytes [] q = Some q.
Proof. unfold comQueSend.pushString. apply pushN_nil. Qed.

Section PushShape.

Variable capacityBytes : nat.
Variable T : Type.
Variable W : Wire.format T.
Hypothesis W_lawful : Wire.lawful W.

(** What a call adds: [extra] after the content of the last buffer, then
    the buffers [new]. *)
Let added (bytes : list Wire.byte) (q q' : comQueSend.t) : Prop :=
  exists extra new,
    q' = Spec.appendBufs (Script.topUp q extra) new
    /\ extra ++ comQueSend.chainData new = bytes
    /\ Forall (fun b => Script.uncommitted b
                        /\ Script.wellFilled capacityBytes b) new
    /\ (forall front tail,
           comQueSend.bufs q = front ++ [tail] ->
           comBuf.nextWriteIndex tail <= capacityBytes ->
           comBuf.nextWriteIndex tail + length extra <= capacityBytes)
    /\ (comQueSend.bufs q = [] -> extra = []).

Lemma freshBufs_wellFilled (l : list T) :
  1 <= capacityBytes / Wire.sizeOf W ->
  Forall (fun b => Script.uncommitted b /\ Script.wellFilled capacityBytes b)
    (Spec.freshBufs W (capacityBytes / Wire.sizeOf W) l).
Proof.
  intros He. destruct W_lawful as [Hs HW].
  unfold Spec.freshBufs. apply Forall_map.
  eapply Forall_impl; [|apply (chunks_pieces (length l) _ l He)].
  intros piece [H1 H2]. split; [reflexivity|].
  unfold Script.wellFilled, comBuf.nextWriteIndex.
  cbn [Spec.holding Spec.appendTo comBuf.buf comBuf.fresh app].
  rewrite (wire_flat_map_length W piece W_lawful).
  pose proof (Nat.Div0.mul_div_le capacityBytes (Wire.sizeOf W)).
  nia.
Qed.

Lemma push_shape (val : T) (q q' : comQueSend.t) :
  comQueSend.push capacityBytes W val q = Some q' ->
  added (Wire.WireSet W val) q q'.
Proof.
  intros Hsome. destruct W_lawful as [Hs HW].
  assert (Hle : Wire.sizeOf W <= capacityBytes).
  { destruct (Nat.le_gt_cases (Wire.sizeOf W) capacityBytes) as [H|H];
      [exact H|].
    rewrite (push_none capacityBytes T W val q H) in Hsome. discriminate. }
  destruct (push_spec capacityBytes T W val q Hle) as [q'' [Hq'' [Hw _]]].
  rewrite Hsome in Hq''. inversion Hq''; subst q''. clear Hq''.
  destruct Hw as [[front [tail [Hb [Hroom ->]]]]|[Hfull ->]].
  - exists (Wire.WireSet W val), []. split; [|split; [|split; [|split]]].
    + rewrite (topUp_snoc q front tail _ Hb). reflexivity.
    + apply app_nil_r.
    + constructor.
    + intros front' tail' Hb' _. rewrite Hb in Hb'.
      apply app_inj_tail in Hb'. destruct Hb' as [_ <-]. rewrite HW. lia.
    + intros Hnil. rewrite Hnil in Hb. destruct front; discriminate.
  - exists [], [Spec.holding (Wire.WireSet W val)].
    split; [|split; [|split; [|split]]].
    + rewrite topUp_nil. reflexivity.
    + unfold comQueSend.chainData. cbn. apply app_nil_r.
    + constructor; [|constructor]. split; [reflexivity|].
      unfold Script.wellFilled, comBuf.nextWriteIndex. cbn. rewrite HW. lia.
    + intros front tail _ Hfit. cbn [length]. lia.
    + reflexivity.
Qed.

Lemma pushN_shape (pVal : list T) (q q' : comQueSend.t) :
  comQueSend.pushN capacityBytes W pVal q = Some q' ->
  added (flat_map (Wire.WireSet W) pVal) q q'.
Proof.
  intros Hsome. pose proof W_lawful as [Hs HW].
  destruct pVal as [|x pVal'].
  { rewrite pushN_nil in Hsome. inversion Hsome; subst q'.
    exists [], []. split; [rewrite topUp_nil; reflexivity|].
    split; [reflexivity|]. split; [constructor|].
    split; [intros front tail _ Hfit; cbn [length]; lia | reflexivity]. }
  set (pVal := x :: pVal') in *.
  assert (Hle : Wire.sizeOf W <= capacityBytes).
  { destruct (Nat.le_gt_cases (Wire.sizeOf W) capacityBytes) as [H|H];
      [exact H|].
    rewrite (pushN_none capacityBytes T W pVal q Hs H) in Hsome;
      [discriminate | subst pVal; discriminate]. }
  assert (He : 1 <= capacityBytes / Wire.sizeOf W)
    by (apply Nat.div_le_lower_bound; lia).
  destruct (splitLast (comQueSend.bufs q)) as [[front tail]|] eqn:E.
  - apply splitLast_Some in E.
    rewrite (pushN_tail capacityBytes T W pVal q front tail He E) in Hsome.
    inversion Hsome; subst q'. clear Hsome.
    set (n := Nat.min (length pVal) (Spec.room capacityBytes W tail)).
    exists (flat_map (Wire.WireSet W) (firstn n pVal)),
           (Spec.freshBufs W (capacityBytes / Wire.sizeOf W) (skipn n pVal)).
    split; [|split; [|split; [|split]]].
    + rewrite (topUp_snoc q front tail _ E). reflexivity.
    + rewrite (freshBufs_data capacityBytes T W _ He), <- flat_map_app,
        firstn_skipn. reflexivity.
    + apply freshBufs_wellFilled. exact He.
    + intros front' tail' Hb' Hfit. rewrite E in Hb'.
      apply app_inj_tail in Hb'. destruct Hb' as [_ <-].
      rewrite (wire_flat_map_length W _ W_lawful), length_firstn.
      assert (Hn : n <= Spec.room capacityBytes W tail) by (subst n; lia).
      unfold Spec.room in Hn.
      pose proof (Nat.Div0.mul_div_le
                    (capacityBytes - comBuf.nextWriteIndex tail) (Wire.sizeOf W)).
      assert (Hm : Nat.min n (length pVal) <= n) by lia.
      nia.
    + intros Hnil. rewrite Hnil in E. destruct front; discriminate.
  - apply splitLast_None in E.
    rewrite (pushN_empty capacityBytes T W pVal q He E) in Hsome.
    inversion Hsome; subst q'. clear Hsome.
    exists [], (Spec.freshBufs W (capacityBytes / Wire.sizeOf W) pVal).
    split; [|split; [|split; [|split]]].
    + rewrite topUp_nil. reflexivity.
    + apply (freshBufs_data capacityBytes T W _ He).
    + apply freshBufs_wellFilled. exact He.
    + intros front tail Hb. rewrite E in Hb. destruct front; discriminate.
    + reflexivity.
Qed.

End PushShape.

Lemma step_shape (capacityBytes : nat) (o : Script.op) (q q' : comQueSend.t) :
  Script.step capacityBytes o q = Some q' ->
  exists extra new,
    q' = Spec.appendBufs (Script.topUp q extra) new
    /\ extra ++ comQueSend.chainData new = Script.bytes o
    /\ Forall (fun b => Script.uncommitted b
                        /\ Script.wellFilled capacityBytes b) new
    /\ (forall front tail,
           comQueSend.bufs q = front ++ [tail] ->
           comBuf.nextWriteIndex tail <= capacityBytes ->
           comBuf.nextWriteIndex tail + length extra <= capacityBytes)
    /\ (comQueSend.bufs q = [] -> extra = []).
Proof.
  destruct o as [value|value|value|pVal]; cbn [Script.step Script.bytes].
  - apply (push_shape capacityBytes _ Wire.uint16 uint16_lawful).
  - apply (push_shape capacityBytes _ Wire.uint32 uint32_lawful).
  - apply (push_shape capacityBytes _ Wire.float32 float32_lawful).
  - apply (pushN_shape capacityBytes _ Wire.chars chars_lawful).
Qed.

Lemma topUp_cursor (q : comQueSend.t) extra :
  comQueSend.pFirstUncommited (Script.topUp q extra)
  = comQueSend.pFirstUncommited q.
Proof.
  unfold Script.topUp.
  destruct (splitLast (comQueSend.bufs q)) as [[front tail]|]; reflexivity.
Qed.

Lemma topUp_pending (q : comQueSend.t) extra :
  comQueSend.nBytesPending (Script.topUp q extra) = comQueSend.nBytesPending q.
Proof.
  unfold Script.topUp.
  destruct (splitLast (comQueSend.bufs q)) as [[front tail]|]; reflexivity.
Qed.

Lemma topUp_length (q : comQueSend.t) extra :
  length (comQueSend.bufs (Script.topUp q extra)) = length (comQueSend.bufs q).
Proof.
  unfold Script.topUp.
  destruct (splitLast (comQueSend.bufs q)) as [[front tail]|] eqn:E;
    [|reflexivity].
  apply splitLast_Some in E. cbn [comQueSend.with_bufs comQueSend.bufs].
  rewrite E, !length_app. reflexivity.
Qed.

Lemma topUp_front (q : comQueSend.t) extra :
  firstn (length (comQueSend.bufs q) - 1) (comQueSend.bufs (Script.topUp q extra))
  = firstn (length (comQueSend.bufs q) - 1) (comQueSend.bufs q).
Proof.
  unfold Script.topUp.
  destruct (splitLast (comQueSend.bufs q)) as [[front tail]|] eqn:E;
    [|reflexivity].
  apply splitLast_Some in E. cbn [comQueSend.with_bufs comQueSend.bufs].
  rewrite E, length_app. cbn [length].
  replace (length front + 1 - 1) with (length front + 0) by lia.
  rewrite !firstn_app_2. reflexivity.
Qed.

Lemma chainData_cons (b : comBuf.t) (l : list comBuf.t) :
  comQueSend.chainData (b :: l) = comBuf.buf b ++ comQueSend.chainData l.
Proof. reflexivity. Qed.

Lemma chainData_one (b : comBuf.t) : comQueSend.chainData [b] = comBuf.buf b.
Proof. unfold comQueSend.chainData. cbn. apply app_nil_r. Qed.

(** X1.  With a buffer capacity of at least 4 bytes, any sequence of typed
    pushes returns, the bytes of the chain afterwards are the bytes of the
    chain before followed by the encoded values in the order of the calls,
    and [occupiedBytes] is what it was before the first call. *)
Theorem typed_pushes_in_call_order (capacityBytes : nat)
    (ops : list Script.op) (q : comQueSend.t) :
  4 <= capacityBytes ->
  exists q',
    Script.run capacityBytes ops q = Some q'
    /\ comQueSend.chainData (comQueSend.bufs q')
       = comQueSend.chainData (comQueSend.bufs q) ++ flat_map Script.bytes ops
    /\ comQueSend.occupiedBytes q' = comQueSend.occupiedBytes q.
Proof.
  intros Hcap. revert q. induction ops as [|o ops IH]; intros q.
  - exists q. cbn. rewrite app_nil_r. auto.
  - assert (Hstep : exists q1,
        Script.step capacityBytes o q = Some q1
        /\ comQueSend.chainData (comQueSend.bufs q1)
           = comQueSend.chainData (comQueSend.bufs q) ++ Script.bytes o
        /\ comQueSend.nBytesPending q1 = comQueSend.nBytesPending q).
    { destruct o as [value|value|value|pVal]; cbn [Script.step Script.bytes].
      - destruct (push_spec capacityBytes _ Wire.uint16 value q)
          as [q1 [H1 [_ H2]]]; [simpl; lia | eauto].
      - destruct (push_spec capacityBytes _ Wire.uint32 value q)
          as [q1 [H1 [_ H2]]]; [simpl; lia | eauto].
      - destruct (push_spec capacityBytes _ Wire.float32 value q)
          as [q1 [H1 [_ H2]]]; [simpl; lia | eauto].
      - destruct (pushN_appends capacityBytes _ Wire.chars pVal q)
          as [q1 [H1 H2]]; [|eauto].
        cbn [Wire.sizeOf Wire.chars]. rewrite Nat.div_1_r. lia. }
    destruct Hstep as [q1 [H1 [H2 H3]]].
    destruct (IH q1) as [q' [H4 [H5 H6]]].
    exists q'. cbn [Script.run flat_map]. rewrite H1.
    split; [exact H4|]. split.
    + rewrite H5, H2, <- app_assoc. reflexivity.
    + unfold comQueSend.occupiedBytes in *. congruence.
Qed.

Lemma typed_pushes_in_call_order_witness :
  4 <= 8
  /\ exists q',
       Script.run 8
         [Script.PushUInt16 258%Z; Script.PushString [72; 105]%Z;
          Script.PushUInt32 1%Z] Spec.oneByteQueued = Some q'
       /\ comQueSend.chainData (comQueSend.bufs q')
          = comQueSend.chainData (comQueSend.bufs Spec.oneByteQueued)
              ++ flat_map Script.bytes
                   [Script.PushUInt16 258%Z; Script.PushString [72; 105]%Z;
                    Script.PushUInt32 1%Z]
       /\ comQueSend.occupiedBytes q'
          = comQueSend.occupiedBytes Spec.oneByteQueued.
Proof.
  assert (H : 4 <= 8) by lia.
  split; [exact H|].
  exact (typed_pushes_in_call_order 8 _ Spec.oneByteQueued H).
Defined.

(** X2.  A typed push that returns never shortens the chain and never
    touches a buffer other than the last one.  It leaves a valid
    uncommitted cursor where it is; an invalid cursor stays invalid when
    the push links no buffer, and otherwise comes to designate the first
    buffer that the push linked. *)
Theorem push_moves_cursor_only_when_invalid (capacityBytes : nat)
    (o : Script.op) (q q' : comQueSend.t) :
  Script.step capacityBytes o q = Some q' ->
  length (comQueSend.bufs q) <= length (comQueSend.bufs q')
  /\ firstn (length (comQueSend.bufs q) - 1) (comQueSend.bufs q')
     = firstn (length (comQueSend.bufs q) - 1) (comQueSend.bufs q)
  /\ comQueSend.pFirstUncommited q'
     = match comQueSend.pFirstUncommited q with
       | Some i => Some i
       | None =>
           if length (comQueSend.bufs q') =? length (comQueSend.bufs q)
           then None
           else Some (length (comQueSend.bufs q))
       end.
Proof.
  intros Hstep.
  destruct (step_shape capacityBytes o q q' Hstep) as [extra [new [-> _]]].
  rewrite appendBufs_bufs, appendBufs_cursor, topUp_cursor, length_app,
    topUp_length.
  split; [lia|]. split.
  - rewrite firstn_app.
    replace (length (comQueSend.bufs q) - 1
             - length (comQueSend.bufs (Script.topUp q extra))) with 0
      by (rewrite topUp_length; lia).
    rewrite firstn_O, app_nil_r. apply topUp_front.
  - destruct (comQueSend.pFirstUncommited q) as [i|]; [reflexivity|].
    destruct new as [|cb new]; cbn [length].
    + rewrite Nat.add_0_r, Nat.eqb_refl. reflexivity.
    + destruct (Nat.eqb_spec (length (comQueSend.bufs q) + S (length new))
                  (length (comQueSend.bufs q))); [lia | reflexivity].
Qed.

Lemma push_moves_cursor_only_when_invalid_witness :
  Script.step 2 (Script.PushString [72; 105]%Z) Spec.oneByteQueued
  = Some {| comQueSend.bufs :=
              [ {| comBuf.commitIndex := 1; comBuf.buf := [65; 72]%Z |};
                {| comBuf.commitIndex := 0; comBuf.buf := [105%Z] |} ];
            comQueSend.pFirstUncommited := Some 1;
            comQueSend.nBytesPending := 1 |}
  /\ Some 1
     = match comQueSend.pFirstUncommited Spec.oneByteQueued with
       | Some i => Some i
       | None =>
           if 2 =? length (comQueSend.bufs Spec.oneByteQueued)
           then None
           else Some (length (comQueSend.bufs Spec.oneByteQueued))
       end.
Proof.
  assert (H : Script.step 2 (Script.PushString [72; 105]%Z) Spec.oneByteQueued
              = Some {| comQueSend.bufs :=
                          [ {| comBuf.commitIndex := 1; comBuf.buf := [65; 72]%Z |};
                            {| comBuf.commitIndex := 0; comBuf.buf := [105%Z] |} ];
                        comQueSend.pFirstUncommited := Some 1;
                        comQueSend.nBytesPending := 1 |}) by reflexivity.
  split; [exact H|].
  exact (proj2 (proj2 (push_moves_cursor_only_when_invalid 2 _ _ _ H))).
Defined.

Lemma step_keeps_wellFilled (capacityBytes : nat) (o : Script.op)
    (q q' : comQueSend.t) :
  Forall (Script.wellFilled capacityBytes) (comQueSend.bufs q) ->
  Script.step capacityBytes o q = Some q' ->
  Forall (Script.wellFilled capacityBytes) (comQueSend.bufs q').
Proof.
  intros Hq Hstep.
  destruct (step_shape capacityBytes o q q' Hstep)
    as [extra [new [-> [_ [Hnew [Hfit _]]]]]].
  rewrite appendBufs_bufs. apply Forall_app. split.
  - unfold Script.topUp.
    destruct (splitLast (comQueSend.bufs q)) as [[front tail]|] eqn:E;
      [|exact Hq].
    apply splitLast_Some in E. cbn [comQueSend.with_bufs comQueSend.bufs].
    rewrite E in Hq. apply Forall_app in Hq. destruct Hq as [Hfront Htail].
    inversion Htail as [|? ? [Hpos Hle] _]; subst.
    apply Forall_app. split; [exact Hfront|]. constructor; [|constructor].
    specialize (Hfit front tail E Hle).
    unfold Script.wellFilled, comBuf.nextWriteIndex in *.
    cbn [Spec.appendTo comBuf.buf]. rewrite length_app. lia.
  - eapply Forall_impl; [|exact Hnew]. intros b [_ Hb]. exact Hb.
Qed.

(** X5.  Typed pushes keep the chain well filled: when no buffer of the
    chain is empty or filled past the capacity before a sequence of typed
    pushes, none is afterwards; in particular no push ever links an empty
    buffer. *)
Theorem pushes_keep_buffers_well_filled (capacityBytes : nat)
    (ops : list Script.op) (q q' : comQueSend.t) :
  Forall (Script.wellFilled capacityBytes) (comQueSend.bufs q) ->
  Script.run capacityBytes ops q = Some q' ->
  Forall (Script.wellFilled capacityBytes) (comQueSend.bufs q').
Proof.
  revert q. induction ops as [|o ops IH]; intros q Hq Hrun.
  - cbn in Hrun. inversion Hrun; subst. exact Hq.
  - cbn [Script.run] in Hrun.
    destruct (Script.step capacityBytes o q) as [q1|] eqn:E; [|discriminate].
    apply (IH q1); [|exact Hrun].
    apply (step_keeps_wellFilled capacityBytes o q q1 Hq E).
Qed.

Lemma pushes_keep_buffers_well_filled_witness :
  Forall (Script.wellFilled 4) (comQueSend.bufs Spec.oneByteQueued)
  /\ Script.run 4 [Script.PushUInt32 1%Z; Script.PushString [72; 105]%Z]
       Spec.oneByteQueued
     = Some {| comQueSend.bufs :=
                 [ {| comBuf.commitIndex := 1; comBuf.buf := [65%Z] |};
                   {| comBuf.commitIndex := 0; comBuf.buf := [0; 0; 0; 1]%Z |};
                   {| comBuf.commitIndex := 0; comBuf.buf := [72; 105]%Z |} ];
               comQueSend.pFirstUncommited := Some 1;
               comQueSend.nBytesPending := 1 |}
  /\ Forall (Script.wellFilled 4)
       [ {| comBuf.commitIndex := 1; comBuf.buf := [65%Z] |};
         {| comBuf.commitIndex := 0; comBuf.buf := [0; 0; 0; 1]%Z |};
         {| comBuf.commitIndex := 0; comBuf.buf := [72; 105]%Z |} ].
Proof.
  assert (H1 : Forall (Script.wellFilled 4) (comQueSend.bufs Spec.oneByteQueued)).
  { repeat constructor. }
  assert (H2 : Script.run 4 [Script.PushUInt32 1%Z; Script.PushString [72; 105]%Z]
                 Spec.oneByteQueued
               = Some {| comQueSend.bufs :=
                 [ {| comBuf.commitIndex := 1; comBuf.buf := [65%Z] |};
                   {| comBuf.commitIndex := 0; comBuf.buf := [0; 0; 0; 1]%Z |};
                   {| comBuf.commitIndex := 0; comBuf.buf := [72; 105]%Z |} ];
               comQueSend.pFirstUncommited := Some 1;
               comQueSend.nBytesPending := 1 |}) by reflexivity.
  split; [exact H1|]. split; [exact H2|].
  exact (pushes_keep_buffers_well_filled 4 _ _ _ H1 H2).
Defined.

(** *** Bytes pushed inside an open message *)

Section OpenMessage.

Variable capacityBytes : nat.

(** The chain of [q'] is [front], then [tail] with [written] after its
    content and its committed offset unchanged, then buffers of which
    nothing is committed; the cursor designates the buffer after [front];
    [written] and the later buffers hold [bytes]. *)
Let behind (front : list comBuf.t) (tail : comBuf.t)
    (bytes : list Wire.byte) (q' : comQueSend.t) : Prop :=
  comQueSend.pFirstUncommited q' = Some (length front)
  /\ exists tail' rest written,
       comQueSend.bufs q' = front ++ tail' :: rest
       /\ comBuf.commitIndex tail' = comBuf.commitIndex tail
       /\ comBuf.buf tail' = comBuf.buf tail ++ written
       /\ Forall Script.uncommitted rest
       /\ written ++ comQueSend.chainData rest = bytes.

(** The chain of [q'] holds [bytes], nothing of it is committed, and the
    cursor designates its first buffer, if any. *)
Let allNew (bytes : list Wire.byte) (q' : comQueSend.t) : Prop :=
  Forall Script.uncommitted (comQueSend.bufs q')
  /\ comQueSend.pFirstUncommited q'
     = match comQueSend.bufs q' with [] => None | _ :: _ => Some 0 end
  /\ comQueSend.chainData (comQueSend.bufs q') = bytes.

Lemma step_behind front tail acc (o : Script.op) (q q' : comQueSend.t) :
  behind front tail acc q ->
  Script.step capacityBytes o q = Some q' ->
  behind front tail (acc ++ Script.bytes o) q'.
Proof.
  intros [Hc [tail' [rest [written [Hb [Hci [Hbuf [Hrest Hacc]]]]]]]] Hstep.
  subst acc.
  destruct (step_shape capacityBytes o q q' Hstep)
    as [extra [new [-> [Hbytes [Hnew _]]]]].
  assert (Hnew' : Forall Script.uncommitted new)
    by (eapply Forall_impl; [|exact Hnew]; intros b [H _]; exact H).
  split; [rewrite appendBufs_cursor, topUp_cursor, Hc; reflexivity|].
  rewrite appendBufs_bufs.
  destruct (splitLast rest) as [[rf rl]|] eqn:E.
  - apply splitLast_Some in E. subst rest.
    assert (Hb' : comQueSend.bufs q = (front ++ tail' :: rf) ++ [rl])
      by (rewrite Hb, <- app_assoc; reflexivity).
    rewrite (topUp_snoc q _ rl extra Hb').
    cbn [comQueSend.with_bufs comQueSend.bufs].
    apply Forall_app in Hrest. destruct Hrest as [Hrf Hrl].
    inversion Hrl as [|? ? Hrl0 _]; subst.
    exists tail', (rf ++ [Spec.appendTo rl extra] ++ new), written.
    split; [rewrite <- !app_assoc; reflexivity|].
    split; [exact Hci|]. split; [exact Hbuf|]. split.
    + apply Forall_app. split; [exact Hrf|].
      apply Forall_app. split; [|exact Hnew'].
      constructor; [exact Hrl0 | constructor].
    + rewrite !chainData_app, !chainData_one.
      cbn [Spec.appendTo comBuf.buf].
      rewrite <- Hbytes, <- !app_assoc. reflexivity.
  - apply splitLast_None in E. subst rest.
    rewrite (topUp_snoc q front tail' extra Hb).
    cbn [comQueSend.with_bufs comQueSend.bufs].
    exists (Spec.appendTo tail' extra), new, (written ++ extra).
    split; [rewrite <- app_assoc; reflexivity|].
    split; [exact Hci|].
    split; [cbn [Spec.appendTo comBuf.buf]; rewrite Hbuf, app_assoc; reflexivity|].
    split; [exact Hnew'|].
    rewrite <- Hbytes. unfold comQueSend.chainData at 2. cbn [map concat].
    rewrite app_nil_r, <- app_assoc. reflexivity.
Qed.

Lemma step_allNew acc (o : Script.op) (q q' : comQueSend.t) :
  allNew acc q ->
  Script.step capacityBytes o q = Some q' ->
  allNew (acc ++ Script.bytes o) q'.
Proof.
  intros [Hall [Hc Hacc]] Hstep. subst acc.
  destruct (step_shape capacityBytes o q q' Hstep)
    as [extra [new [-> [Hbytes [Hnew [_ Hnil]]]]]].
  assert (Hnew' : Forall Script.uncommitted new)
    by (eapply Forall_impl; [|exact Hnew]; intros b [H _]; exact H).
  unfold allNew.
  rewrite appendBufs_cursor, appendBufs_bufs, topUp_cursor, topUp_length.
  destruct (splitLast (comQueSend.bufs q)) as [[front tail]|] eqn:E.
  - apply splitLast_Some in E.
    rewrite (topUp_snoc q front tail extra E).
    cbn [comQueSend.with_bufs comQueSend.bufs].
    rewrite E in Hall, Hc. rewrite E.
    apply Forall_app in Hall. destruct Hall as [Hfront Htail].
    inversion Htail as [|? ? Htail0 _]; subst.
    split; [|split].
    + apply Forall_app. split; [|exact Hnew'].
      apply Forall_app. split; [exact Hfront|].
      constructor; [exact Htail0 | constructor].
    + rewrite Hc. destruct front; reflexivity.
    + rewrite !chainData_app, !chainData_one.
      cbn [Spec.appendTo comBuf.buf].
      rewrite <- Hbytes, <- !app_assoc. reflexivity.
  - apply splitLast_None in E.
    rewrite (topUp_empty q extra E), E. cbn [app length].
    rewrite E in Hc. specialize (Hnil E). subst extra.
    split; [exact Hnew'|]. split.
    + rewrite Hc. destruct new; reflexivity.
    + cbn [app] in Hbytes. exact Hbytes.
Qed.

Lemma run_behind front tail (ops : list Script.op) :
  forall acc (q q' : comQueSend.t),
    behind front tail acc q ->
    Script.run capacityBytes ops q = Some q' ->
    behind front tail (acc ++ flat_map Script.bytes ops) q'.
Proof.
  induction ops as [|o ops IH]; intros acc q q' Hq Hrun.
  - cbn in Hrun. inversion Hrun; subst. cbn. rewrite app_nil_r. exact Hq.
  - cbn [Script.run] in Hrun.
    destruct (Script.step capacityBytes o q) as [q1|] eqn:E; [|discriminate].
    cbn [flat_map]. rewrite app_assoc.
    apply (IH _ q1 q'); [|exact Hrun].
    apply (step_behind front tail acc o q q1 Hq E).
Qed.

Lemma run_allNew (ops : list Script.op) :
  forall acc (q q' : comQueSend.t),
    allNew acc q ->
    Script.run capacityBytes ops q = Some q' ->
    allNew (acc ++ flat_map Script.bytes ops) q'.
Proof.
  induction ops as [|o ops IH]; intros acc q q' Hq Hrun.
  - cbn in Hrun. inversion Hrun; subst. cbn. rewrite app_nil_r. exact Hq.
  - cbn [Script.run] in Hrun.
    destruct (Script.step capacityBytes o q) as [q1|] eqn:E; [|discriminate].
    cbn [flat_map]. rewrite app_assoc.
    apply (IH _ q1 q'); [|exact Hrun].
    apply (step_allNew acc o q q1 Hq E).
Qed.

(** X7.  What is pushed after [beginMsg] lies at or behind the uncommitted
    cursor.  When the chain has a last buffer at [beginMsg], then after any
    typed pushes the cursor still designates that buffer, the buffers in
    front of it are untouched, the buffer keeps its committed offset and
    its content, and the pushed bytes, in the order of the calls, are what
    follows that content and fills the later buffers, of which nothing is
    committed.  When the chain is empty at [beginMsg], the chain afterwards
    holds the pushed bytes and nothing else, nothing of it is committed,
    and the cursor designates its first buffer, if any. *)
Theorem open_message_lies_behind_cursor (q0 q' : comQueSend.t)
    (ops : list Script.op) :
  Script.run capacityBytes ops (comQueSend.beginMsg q0) = Some q' ->
  (forall front tail,
      comQueSend.bufs (comQueSend.beginMsg q0) = front ++ [tail] ->
      comQueSend.pFirstUncommited q' = Some (length front)
      /\ exists tail' rest written,
           comQueSend.bufs q' = front ++ tail' :: rest
           /\ comBuf.commitIndex tail' = comBuf.commitIndex tail
           /\ comBuf.buf tail' = comBuf.buf tail ++ written
           /\ Forall Script.uncommitted rest
           /\ written ++ comQueSend.chainData rest
              = flat_map Script.bytes ops)
  /\ (comQueSend.bufs (comQueSend.beginMsg q0) = [] ->
      Forall Script.uncommitted (comQueSend.bufs q')
      /\ comQueSend.pFirstUncommited q'
         = match comQueSend.bufs q' with [] => None | _ :: _ => Some 0 end
      /\ comQueSend.chainData (comQueSend.bufs q')
         = flat_map Script.bytes ops).
Proof.
  intros Hrun.
  assert (Hcur : comQueSend.pFirstUncommited (comQueSend.beginMsg q0)
                 = comQueSend.lastIter (comQueSend.bufs (comQueSend.beginMsg q0)))
    by reflexivity.
  split.
  - intros front tail Hb.
    apply (run_behind front tail ops [] (comQueSend.beginMsg q0) q'); [|exact Hrun].
    split; [rewrite Hcur, Hb; apply lastIter_snoc|].
    exists tail, [], []. rewrite app_nil_r. repeat split; auto.
  - intros Hb.
    apply (run_allNew ops [] (comQueSend.beginMsg q0) q'); [|exact Hrun].
    split; [rewrite Hb; constructor|].
    split; [rewrite Hcur, Hb; reflexivity | rewrite Hb; reflexivity].
Qed.

End OpenMessage.

Lemma open_message_lies_behind_cursor_witness :
  Script.run 4 [Script.PushUInt16 258%Z; Script.PushUInt32 1%Z]
    (comQueSend.beginMsg Spec.oneByteQueued)
  = Some {| comQueSend.bufs :=
              [ {| comBuf.commitIndex := 1; comBuf.buf := [65; 1; 2]%Z |};
                {| comBuf.commitIndex := 0; comBuf.buf := [0; 0; 0; 1]%Z |} ];
            comQueSend.pFirstUncommited := Some 0;
            comQueSend.nBytesPending := 1 |}
  /\ comQueSend.pFirstUncommited
       {| comQueSend.bufs :=
            [ {| comBuf.commitIndex := 1; comBuf.buf := [65; 1; 2]%Z |};
              {| comBuf.commitIndex := 0; comBuf.buf := [0; 0; 0; 1]%Z |} ];
          comQueSend.pFirstUncommited := Some 0;
          comQueSend.nBytesPending := 1 |}
     = Some (length (@nil comBuf.t)).
Proof.
  assert (H : Script.run 4 [Script.PushUInt16 258%Z; Script.PushUInt32 1%Z]
                (comQueSend.beginMsg Spec.oneByteQueued)
              = Some {| comQueSend.bufs :=
                 [ {| comBuf.commitIndex := 1; comBuf.buf := [65; 1; 2]%Z |};
                   {| comBuf.commitIndex := 0; comBuf.buf := [0; 0; 0; 1]%Z |} ];
               comQueSend.pFirstUncommited := Some 0;
               comQueSend.nBytesPending := 1 |}) by reflexivity.
  split; [exact H|].
  exact (proj1 (proj1 (open_message_lies_behind_cursor 4 Spec.oneByteQueued _ _ H)
                  [] {| comBuf.commitIndex := 1; comBuf.buf := [65%Z] |}
                  eq_refl)).
Defined.

(** ** Arrays and scalars *)

Section ArrayAsScalars.

Variable capacityBytes : nat.
Variable T : Type.
Variable W : Wire.format T.
Hypothesis W_lawful : Wire.lawful W.

Lemma room_after (b : comBuf.t) (val : T) :
  Wire.sizeOf W <= capacityBytes - comBuf.nextWriteIndex b ->
  S (Spec.room capacityBytes W (Spec.appendTo b (Wire.WireSet W val)))
  = Spec.room capacityBytes W b.
Proof.
  destruct W_lawful as [Hs HW]. intros Hroom.
  unfold Spec.room, comBuf.nextWriteIndex.
  cbn [Spec.appendTo comBuf.buf]. rewrite length_app, HW.
  set (s := Wire.sizeOf W) in *.
  set (a := capacityBytes - length (comBuf.buf b)) in *.
  replace (capacityBytes - (length (comBuf.buf b) + s)) with (a - s)
    by (subst a; unfold comBuf.nextWriteIndex in *; lia).
  unfold comBuf.nextWriteIndex in Hroom. fold a in Hroom.
  replace a with ((a - s) + 1 * s) at 2 by lia.
  rewrite Nat.div_add by lia. lia.
Qed.

Lemma pushComBuf_grown (q : comQueSend.t) (first more : list Wire.byte) :
  comQueSend.pushComBuf (Spec.holding (first ++ more)) q
  = comQueSend.with_bufs (comQueSend.pushComBuf (Spec.holding first) q)
      (comQueSend.bufs q ++ [Spec.appendTo (Spec.holding first) more]).
Proof.
  unfold comQueSend.pushComBuf, comQueSend.with_bufs.
  cbn [comQueSend.bufs comQueSend.pFirstUncommited comQueSend.nBytesPending].
  rewrite !lastIter_snoc. reflexivity.
Qed.

Lemma freshBufs_cons (q : comQueSend.t) (val : T) (l : list T) :
  1 <= capacityBytes / Wire.sizeOf W ->
  let q1 := comQueSend.pushComBuf (Spec.holding (Wire.WireSet W val)) q in
  let n1 := Nat.min (length l)
              (Spec.room capacityBytes W (Spec.holding (Wire.WireSet W val))) in
  Spec.appendBufs q (Spec.freshBufs W (capacityBytes / Wire.sizeOf W) (val :: l))
  = Spec.appendBufs
      (comQueSend.with_bufs q1
         (comQueSend.bufs q
            ++ [Spec.appendTo (Spec.holding (Wire.WireSet W val))
                  (flat_map (Wire.WireSet W) (firstn n1 l))]))
      (Spec.freshBufs W (capacityBytes / Wire.sizeOf W) (skipn n1 l)).
Proof.
  intros He q1 n1. destruct W_lawful as [Hs HW].
  assert (Hroom : S (Spec.room capacityBytes W (Spec.holding (Wire.WireSet W val)))
                  = capacityBytes / Wire.sizeOf W).
  { unfold Spec.holding. rewrite room_after.
    - unfold Spec.room. cbn. rewrite Nat.sub_0_r. reflexivity.
    - cbn. pose proof (Nat.Div0.mul_div_le capacityBytes (Wire.sizeOf W)). nia. }
  unfold Spec.freshBufs. cbn [length].
  rewrite chunks_cons by (cbn [length]; lia).
  replace (Nat.min (length (val :: l)) (capacityBytes / Wire.sizeOf W))
    with (S n1) by (subst n1; cbn [length]; lia).
  cbn [firstn skipn map flat_map].
  rewrite (chunks_fuel (length l) (length (skipn n1 l)) _ (skipn n1 l) He)
    by (rewrite length_skipn; lia).
  unfold Spec.appendBufs at 1. cbn [fold_left].
  fold (Spec.appendBufs
          (comQueSend.pushComBuf
             (Spec.holding (Wire.WireSet W val ++ flat_map (Wire.WireSet W) (firstn n1 l)))
             q)).
  rewrite pushComBuf_grown. reflexivity.
Qed.

Lemma pushN_cons (val : T) (l : list T) (q : comQueSend.t) :
  comQueSend.pushN capacityBytes W (val :: l) q
  = match comQueSend.push capacityBytes W val q with
    | Some q1 => comQueSend.pushN capacityBytes W l q1
    | None => None
    end.
Proof.
  pose proof W_lawful as [Hs HW].
  destruct (Nat.le_gt_cases (Wire.sizeOf W) capacityBytes) as [Hle|Hgt].
  2:{ rewrite (push_none capacityBytes T W val q Hgt).
      apply pushN_none; [exact Hs | exact Hgt | discriminate]. }
  assert (He : 1 <= capacityBytes / Wire.sizeOf W)
    by (apply Nat.div_le_lower_bound; lia).
  destruct (splitLast (comQueSend.bufs q)) as [[front tail]|] eqn:E.
  - apply splitLast_Some in E.
    destruct (Nat.le_gt_cases (Wire.sizeOf W)
                (capacityBytes - comBuf.nextWriteIndex tail)) as [Hroom|Hfull].
    + rewrite (push_tail capacityBytes T W val q front tail E Hroom).
      rewrite (pushN_tail capacityBytes T W (val :: l) q front tail He E).
      rewrite (pushN_tail capacityBytes T W l
                 (comQueSend.with_bufs q
                    (front ++ [Spec.appendTo tail (Wire.WireSet W val)]))
                 front (Spec.appendTo tail (Wire.WireSet W val)) He eq_refl).
      pose proof (room_after tail val Hroom) as Hr.
      replace (Nat.min (length (val :: l)) (Spec.room capacityBytes W tail))
        with (S (Nat.min (length l)
                   (Spec.room capacityBytes W
                      (Spec.appendTo tail (Wire.WireSet W val)))))
        by (cbn [length]; lia).
      cbn [firstn skipn flat_map].
      unfold Spec.appendTo, comQueSend.with_bufs.
      cbn [comBuf.commitIndex comBuf.buf comQueSend.pFirstUncommited
           comQueSend.nBytesPending].
      rewrite <- app_assoc. reflexivity.
    + rewrite (push_fresh capacityBytes T W val q Hle).
      2:{ intros front' tail' E'. rewrite E in E'.
          apply app_inj_tail in E'. destruct E' as [_ <-]. exact Hfull. }
      rewrite (pushN_tail capacityBytes T W (val :: l) q front tail He E).
      rewrite (pushN_tail capacityBytes T W l
                 (comQueSend.pushComBuf (Spec.holding (Wire.WireSet W val)) q)
                 (comQueSend.bufs q)
                 (Spec.holding (Wire.WireSet W val)) He eq_refl).
      replace (Nat.min (length (val :: l)) (Spec.room capacityBytes W tail))
        with 0
        by (unfold Spec.room; rewrite Nat.div_small by lia; lia).
      cbn [firstn skipn flat_map].
      rewrite appendTo_nil, <- E, with_bufs_same.
      f_equal. apply freshBufs_cons. exact He.
  - apply splitLast_None in E.
    rewrite (push_fresh capacityBytes T W val q Hle).
    2:{ intros front tail E'. rewrite E in E'. destruct front; discriminate. }
    rewrite (pushN_empty capacityBytes T W (val :: l) q He E).
    rewrite (pushN_tail capacityBytes T W l
                 (comQueSend.pushComBuf (Spec.holding (Wire.WireSet W val)) q)
                 (comQueSend.bufs q)
                 (Spec.holding (Wire.WireSet W val)) He eq_refl).
    f_equal. apply freshBufs_cons. exact He.
Qed.

(** X6.  Pushing an array is pushing its elements one at a time: for every
    queue, the array push leaves exactly the queue (buffers, cursor and
    counter) that the scalar push applied to each element in turn leaves,
    and does not return exactly when that does not.  So an array pushed in
    two parts gives the same queue as the array pushed at once. *)
Theorem array_push_is_elementwise (pVal : list T) (q : comQueSend.t) :
  comQueSend.pushN capacityBytes W pVal q
  = Script.pushEach capacityBytes W pVal q
  /\ forall pVal2,
       comQueSend.pushN capacityBytes W (pVal ++ pVal2) q
       = match comQueSend.pushN capacityBytes W pVal q with
         | Some q1 => comQueSend.pushN capacityBytes W pVal2 q1
         | None => None
         end.
Proof.
  revert q. induction pVal as [|val l IH]; intros q.
  - split; [apply pushN_nil|]. intros pVal2. rewrite pushN_nil. reflexivity.
  - split.
    + rewrite pushN_cons. cbn [Script.pushEach].
      destruct (comQueSend.push capacityBytes W val q) as [q1|];
        [apply IH | reflexivity].
    + intros pVal2. cbn [app]. rewrite !pushN_cons.
      destruct (comQueSend.push capacityBytes W val q) as [q1|];
        [apply IH | reflexivity].
Qed.

End ArrayAsScalars.

Lemma array_push_is_elementwise_witness :
  Wire.lawful Wire.uint16
  /\ comQueSend.pushN 4 Wire.uint16 [1; 2; 3]%Z Spec.oneByteQueued
     = Script.pushEach 4 Wire.uint16 [1; 2; 3]%Z Spec.oneByteQueued
  /\ Script.pushEach 4 Wire.uint16 [1; 2; 3]%Z Spec.oneByteQueued
     = Some {| comQueSend.bufs :=
                 [ {| comBuf.commitIndex := 1; comBuf.buf := [65; 0; 1]%Z |};
                   {| comBuf.commitIndex := 0; comBuf.buf := [0; 2; 0; 3]%Z |} ];
               comQueSend.pFirstUncommited := Some 1;
               comQueSend.nBytesPending := 1 |}.
Proof.
  split; [exact uint16_lawful|].
  split; [|reflexivity].
  exact (proj1 (array_push_is_elementwise 4 _ Wire.uint16 uint16_lawful
                  [1; 2; 3]%Z Spec.oneByteQueued)).
Defined.

(** * Further properties of the address discovery *)

(** ** The walk over the request list *)

Section WalkFacts.

Local Open Scope Z_scope.

Variable sizeof_ifreq : Z.
Variable ifreq_size : Z -> Z.

Lemma ifreqSize_bounds (pifreq : Z) :
  sizeof_ifreq <= ifreqWalk.ifreqSize sizeof_ifreq ifreq_size pifreq
  /\ ifreq_size pifreq <= ifreqWalk.ifreqSize sizeof_ifreq ifreq_size pifreq.
Proof.
  unfold ifreqWalk.ifreqSize. cbv zeta.
  destruct (Z.ltb_spec (ifreq_size pifreq) sizeof_ifreq); lia.
Qed.

Lemma visited_spec (ifc_len : Z) (fuel : nat) :
  forall pifreq,
    ifc_len - sizeof_ifreq - pifreq < Z.of_nat fuel * sizeof_ifreq ->
    exists offs,
      ifreqWalk.visited sizeof_ifreq ifreq_size fuel pifreq
        (ifreqWalk.pIfreqListEnd sizeof_ifreq ifc_len) = Some offs
      /\ ifreqWalk.inOrder sizeof_ifreq ifreq_size ifc_len pifreq offs
      /\ (length offs <= fuel)%nat.
Proof.
  unfold ifreqWalk.pIfreqListEnd.
  induction fuel as [|fuel IH]; intros pifreq Hfuel.
  - cbn [ifreqWalk.visited].
    destruct (Z.leb_spec pifreq (ifc_len - sizeof_ifreq)); [lia|].
    exists []. cbn. auto.
  - cbn [ifreqWalk.visited].
    destruct (Z.leb_spec pifreq (ifc_len - sizeof_ifreq)) as [Hin|Hout].
    + pose proof (ifreqSize_bounds pifreq) as [Hsz _].
      destruct (IH (ifreqWalk.ifreqNext sizeof_ifreq ifreq_size pifreq))
        as [offs [Hv [Hord Hlen]]].
      { unfold ifreqWalk.ifreqNext. lia. }
      rewrite Hv. exists (pifreq :: offs).
      split; [reflexivity|]. split; [|cbn [length]; lia].
      cbn [ifreqWalk.inOrder]. split; [lia|]. split; [lia|].
      unfold ifreqWalk.ifreqNext in Hord.
      rewrite Z.add_comm. exact Hord.
    + exists []. cbn. split; [reflexivity|]. split; [exact I | lia].
Qed.

End WalkFacts.

(** X8.  The walk of [osiLocalAddrOnce] over the answer to SIOCGIFCONF
    ends, whatever sizes the entries report: within [ifc_len / sizeof
    (struct ifreq)] turns.  Every entry it visits leaves room for a whole
    [struct ifreq] inside the [ifc_len] bytes, and begins at or after the
    end ([ifreqSize] bytes on) of the entry visited before it. *)
Theorem ifreq_walk_ends_in_bounds (sizeof_ifreq : Z) (ifreq_size : Z -> Z)
    (ifc_len : Z) :
  (0 < sizeof_ifreq)%Z ->
  exists offs,
    ifreqWalk.visited sizeof_ifreq ifreq_size
      (Z.to_nat (ifc_len / sizeof_ifreq)) 0
      (ifreqWalk.pIfreqListEnd sizeof_ifreq ifc_len) = Some offs
    /\ ifreqWalk.inOrder sizeof_ifreq ifreq_size ifc_len 0 offs
    /\ (Z.of_nat (length offs) * sizeof_ifreq <= Z.max 0 ifc_len)%Z.
Proof.
  intros Hpos.
  pose proof (Z.div_mod ifc_len sizeof_ifreq ltac:(lia)) as Hdm.
  pose proof (Z.mod_pos_bound ifc_len sizeof_ifreq Hpos) as Hr.
  set (d := (ifc_len / sizeof_ifreq)%Z) in *.
  destruct (visited_spec sizeof_ifreq ifreq_size ifc_len (Z.to_nat d) 0%Z)
    as [offs [Hv [Hord Hlen]]].
  - destruct (Z.le_gt_cases 0 d) as [Hge|Hlt].
    + rewrite Z2Nat.id by exact Hge. nia.
    + replace (Z.to_nat d) with 0%nat by lia. nia.
  - exists offs. split; [exact Hv|]. split; [exact Hord|].
    destruct (Z.le_gt_cases 0 d) as [Hge|Hlt].
    + assert (Z.of_nat (length offs) <= d)%Z by lia. nia.
    + assert (length offs = 0%nat) by lia. lia.
Qed.

Lemma ifreq_walk_ends_in_bounds_witness :
  (0 < 40)%Z
  /\ exists offs,
       ifreqWalk.visited 40 (fun _ => 32%Z) (Z.to_nat (100 / 40)) 0
         (ifreqWalk.pIfreqListEnd 40 100) = Some offs
       /\ ifreqWalk.inOrder 40 (fun _ => 32%Z) 100 0 offs
       /\ (Z.of_nat (length offs) * 40 <= Z.max 0 100)%Z.
Proof.
  assert (H : (0 < 40)%Z) by lia.
  split; [exact H|].
  exact (ifreq_walk_ends_in_bounds 40 (fun _ => 32%Z) 100 H).
Defined.

(** ** The local address *)

Section LocalAddr.

Variable htonl : Z -> Z.

Lemma scanIfreq_first (pre post : list osdNetIfConf.ifreq)
    (r : osdNetIfConf.ifreq) :
  forallb osdNetIfConf.skipped pre = true ->
  osdNetIfConf.skipped r = false ->
  osdNetIfConf.scanIfreq (pre ++ r :: post)
  = (Some (osdNetIfConf.ifr_addr r),
     repeat "osiLocalAddr(): net intf flags fetch failed"%string
       (Discover.flagFetchFailures pre)).
Proof.
  intros Hpre Hr. induction pre as [|p pre IH].
  - cbn [app osdNetIfConf.scanIfreq].
    unfold osdNetIfConf.skipped in Hr.
    apply orb_false_iff in Hr. destruct Hr as [Hr H4].
    apply orb_false_iff in Hr. destruct Hr as [Hr H3].
    apply orb_false_iff in Hr. destruct Hr as [H1 H2].
    rewrite H1, H2, H3, H4. reflexivity.
  - cbn [forallb] in Hpre. apply andb_true_iff in Hpre.
    destruct Hpre as [Hp Hpre]. specialize (IH Hpre).
    cbn [app osdNetIfConf.scanIfreq]. rewrite IH.
    unfold Discover.flagFetchFailures. cbn [filter].
    unfold osdNetIfConf.skipped in Hp.
    destruct (osdNetIfConf.sa_family (osdNetIfConf.ifr_addr p)
              =? osdNetIfConf.AF_INET)%Z;
      cbn [negb andb orb] in *; [|reflexivity].
    destruct (osdNetIfConf.ifr_flags_status p <? 0)%Z;
      cbn [negb andb orb] in *; [reflexivity|].
    destruct (osdNetIfConf.flagSet (osdNetIfConf.ifr_flags p)
                osdNetIfConf.IFF_UP);
      cbn [negb andb orb] in *; [|reflexivity].
    rewrite Hp. reflexivity.
Qed.

(** X10.  When the request list is allocated and SIOCGIFCONF succeeds with
    a non-zero length, [osiLocalAddrOnce] stores the address of the first
    interface, in the order of the kernel's list, that is an internet
    interface, whose flags can be fetched, that is up and that is not the
    loopback interface; and it logs one message for every internet
    interface in front of that one whose flags could not be fetched. *)
Theorem osiLocalAddrOnce_first_usable (os : osdNetIfConf.ifconf)
    (pre post : list osdNetIfConf.ifreq) (r : osdNetIfConf.ifreq) :
  (0 <= osdNetIfConf.ifc_status os)%Z ->
  osdNetIfConf.ifc_len os <> 0%Z ->
  osdNetIfConf.ifc_req os = pre ++ r :: post ->
  forallb osdNetIfConf.skipped pre = true ->
  osdNetIfConf.skipped r = false ->
  osdNetIfConf.osiLocalAddrOnce htonl true os
  = (osdNetIfConf.ifr_addr r,
     repeat "osiLocalAddr(): net intf flags fetch failed"%string
       (Discover.flagFetchFailures pre)).
Proof.
  intros Hst Hlen Hreq Hpre Hr. unfold osdNetIfConf.osiLocalAddrOnce.
  cbn [negb].
  destruct (Z.ltb_spec (osdNetIfConf.ifc_status os) 0); [lia|].
  destruct (Z.eqb_spec (osdNetIfConf.ifc_len os) 0); [contradiction|].
  cbn [orb]. rewrite Hreq, (scanIfreq_first pre post r Hpre Hr). reflexivity.
Qed.

Lemma scanIfreq_found (l : list osdNetIfConf.ifreq) (a : osdNetIfConf.osiSockAddr) :
  fst (osdNetIfConf.scanIfreq l) = Some a ->
  osdNetIfConf.sa_family a = osdNetIfConf.AF_INET.
Proof.
  induction l as [|r l IH]; [discriminate|].
  cbn [osdNetIfConf.scanIfreq].
  destruct (Z.eqb_spec (osdNetIfConf.sa_family (osdNetIfConf.ifr_addr r))
              osdNetIfConf.AF_INET) as [Hfam|_]; cbn [negb]; [|exact IH].
  destruct (osdNetIfConf.ifr_flags_status r <? 0)%Z.
  { destruct (osdNetIfConf.scanIfreq l) as [found log]. exact IH. }
  destruct (negb (osdNetIfConf.flagSet (osdNetIfConf.ifr_flags r)
                    osdNetIfConf.IFF_UP)); [exact IH|].
  destruct (osdNetIfConf.flagSet (osdNetIfConf.ifr_flags r)
              osdNetIfConf.IFF_LOOPBACK); [exact IH|].
  cbn [fst]. intros H. inversion H; subst. exact Hfam.
Qed.

(** X9.  Whatever the allocation and the ioctls answer, the address that
    [osiLocalAddrOnce] stores is an internet (AF_INET) address: the result
    is never left with the unspecified family it starts from. *)
Theorem osiLocalAddrOnce_family (calloc_ok : bool) (os : osdNetIfConf.ifconf) :
  osdNetIfConf.sa_family (fst (osdNetIfConf.osiLocalAddrOnce htonl calloc_ok os))
  = osdNetIfConf.AF_INET.
Proof.
  unfold osdNetIfConf.osiLocalAddrOnce.
  destruct (negb calloc_ok); [reflexivity|].
  destruct ((osdNetIfConf.ifc_status os <? 0)%Z
            || (osdNetIfConf.ifc_len os =? 0)%Z); [reflexivity|].
  pose proof (scanIfreq_found (osdNetIfConf.ifc_req os)) as Hfound.
  destruct (osdNetIfConf.scanIfreq (osdNetIfConf.ifc_req os)) as [[addr|] log];
    [|reflexivity].
  cbn [fst] in *. apply Hfound. reflexivity.
Qed.

End LocalAddr.

Lemma osiLocalAddrOnce_first_usable_witness :
  osdNetIfConf.osiLocalAddrOnce (fun x => x) true
    {| osdNetIfConf.ifc_status := 0; osdNetIfConf.ifc_len := 80;
       osdNetIfConf.ifc_req :=
         osdNetIfConf.ifc_req Spec.onlyLo ++ [Discover.eth0_req] |}
  = (Discover.eth0_addr, []).
Proof.
  exact (osiLocalAddrOnce_first_usable (fun x => x)
           {| osdNetIfConf.ifc_status := 0; osdNetIfConf.ifc_len := 80;
              osdNetIfConf.ifc_req :=
                osdNetIfConf.ifc_req Spec.onlyLo ++ [Discover.eth0_req] |}
           (osdNetIfConf.ifc_req Spec.onlyLo) [] Discover.eth0_req
           ltac:(cbn; lia) ltac:(cbn; discriminate) eq_refl eq_refl eq_refl).
Defined.

(** ** The broadcast addresses *)

Section Broadcast.

Variable htonl : Z -> Z.
Variable htons : Z -> Z.

Lemma taken_none (pMatchAddr : osdNetIfConf.osiSockAddr)
    (l : list osdNetIfConf.ifaddrs) :
  Discover.taken htonl pMatchAddr l [].
Proof. induction l; constructor; assumption. Qed.

Lemma taken_length (pMatchAddr : osdNetIfConf.osiSockAddr)
    (l : list osdNetIfConf.ifaddrs) (added : list osdNetIfConf.osiSockAddr) :
  Discover.taken htonl pMatchAddr l added -> length added <= length l.
Proof. induction 1; cbn [length]; lia. Qed.

Lemma taken_from (pMatchAddr : osdNetIfConf.osiSockAddr)
    (l : list osdNetIfConf.ifaddrs) (added : list osdNetIfConf.osiSockAddr) :
  Discover.taken htonl pMatchAddr l added ->
  Forall (fun a => exists ifa,
              In ifa l /\ Discover.yields htonl pMatchAddr ifa a) added.
Proof.
  induction 1 as [|ifa l added _ IH|ifa l a added Hy _ IH].
  - constructor.
  - eapply Forall_impl; [|exact IH].
    intros a [ifa0 [Hin Hy]]. exists ifa0. split; [right; exact Hin | exact Hy].
  - constructor; [exists ifa; split; [left; reflexivity | exact Hy]|].
    eapply Forall_impl; [|exact IH].
    intros a0 [ifa0 [Hin Hy0]]. exists ifa0. split; [right; exact Hin | exact Hy0].
Qed.

(** When the loop returns, it has appended to the list one address from
    each interface that yields one, in the order of the interfaces. *)
Lemma scanIfaddrs_returns (calloc : nat -> bool)
    (pMatchAddr : osdNetIfConf.osiSockAddr) (l : list osdNetIfConf.ifaddrs) :
  forall (k : nat) (pList handedBack : list osdNetIfConf.osiSockAddr) log,
    osdNetIfConf.scanIfaddrs htonl calloc k pMatchAddr l pList
    = Some (handedBack, log) ->
    exists added,
      handedBack = pList ++ added
      /\ Discover.taken htonl pMatchAddr l added.
Proof.
  induction l as [|ifa l IH]; intros k pList handedBack log.
  - cbn. intros H. inversion H; subst. exists []. rewrite app_nil_r.
    split; [reflexivity | constructor].
  - assert (Hskip : forall k',
      osdNetIfConf.scanIfaddrs htonl calloc k' pMatchAddr l pList
      = Some (handedBack, log) ->
      exists added,
        handedBack = pList ++ added
        /\ Discover.taken htonl pMatchAddr (ifa :: l) added).
    { intros k' H. destruct (IH _ _ _ _ H) as [added [H1 H2]].
      exists added. split; [exact H1 | apply Discover.taken_skip; exact H2]. }
    assert (Htake : forall k' a,
      Discover.yields htonl pMatchAddr ifa a ->
      osdNetIfConf.scanIfaddrs htonl calloc k' pMatchAddr l (pList ++ [a])
      = Some (handedBack, log) ->
      exists added,
        handedBack = pList ++ added
        /\ Discover.taken htonl pMatchAddr (ifa :: l) added).
    { intros k' a Hy H. destruct (IH _ _ _ _ H) as [added [H1 H2]].
      exists (a :: added). split; [rewrite H1, <- app_assoc; reflexivity|].
      apply Discover.taken_take; assumption. }
    cbn [osdNetIfConf.scanIfaddrs].
    destruct (osdNetIfConf.ifa_addr ifa) as [addr|] eqn:Haddr; [|apply Hskip].
    destruct (Z.eqb_spec (osdNetIfConf.sa_family addr) osdNetIfConf.AF_INET)
      as [Hfam|_]; cbn [negb]; [|apply Hskip].
    destruct (osdNetIfConf.matches htonl pMatchAddr addr) eqn:Hm;
      cbn [negb]; [|apply Hskip].
    destruct (osdNetIfConf.flagSet (osdNetIfConf.ifa_flags ifa)
                osdNetIfConf.IFF_UP) eqn:Hup; cbn [negb]; [|apply Hskip].
    destruct (osdNetIfConf.flagSet (osdNetIfConf.ifa_flags ifa)
                osdNetIfConf.IFF_LOOPBACK) eqn:Hlo; [apply Hskip|].
    destruct (calloc k); cbn [negb].
    2:{ intros H. inversion H; subst. exists []. rewrite app_nil_r.
        split; [reflexivity | apply taken_none]. }
    assert (Hbase : exists addr0,
               osdNetIfConf.ifa_addr ifa = Some addr0
               /\ osdNetIfConf.sa_family addr0 = osdNetIfConf.AF_INET
               /\ osdNetIfConf.matches htonl pMatchAddr addr0 = true)
      by (exists addr; auto).
    destruct (osdNetIfConf.flagSet (osdNetIfConf.ifa_flags ifa)
                osdNetIfConf.IFF_BROADCAST) eqn:Hbc.
    + destruct (osdNetIfConf.ifa_broadaddr ifa) as [baddr|] eqn:Hb;
        [|discriminate].
      destruct (Z.eqb_spec (osdNetIfConf.sa_family baddr) osdNetIfConf.AF_INET)
        as [Hbf|_]; cbn [andb]; [|apply Hskip].
      destruct (Z.eqb_spec (osdNetIfConf.s_addr baddr) osdNetIfConf.INADDR_ANY)
        as [_|Hba]; cbn [negb]; [apply Hskip|].
      apply Htake. unfold Discover.yields.
      split; [exact Hbase|]. split; [exact Hup|]. split; [exact Hlo|].
      left. repeat split; auto.
    + destruct (osdNetIfConf.flagSet (osdNetIfConf.ifa_flags ifa)
                  osdNetIfConf.IFF_POINTOPOINT) eqn:Hpp; [|apply Hskip].
      destruct (osdNetIfConf.ifa_dstaddr ifa) as [dst|] eqn:Hd;
        [|discriminate].
      apply Htake. unfold Discover.yields.
      split; [exact Hbase|]. split; [exact Hup|]. split; [exact Hlo|].
      right. repeat split; auto.
Qed.

(** The loop fails to return only through a null pointer that it reads. *)
Lemma scanIfaddrs_crashes (calloc : nat -> bool)
    (pMatchAddr : osdNetIfConf.osiSockAddr) (l : list osdNetIfConf.ifaddrs) :
  forall (k : nat) (pList : list osdNetIfConf.osiSockAddr),
    osdNetIfConf.scanIfaddrs htonl calloc k pMatchAddr l pList = None ->
    exists ifa, In ifa l /\ Discover.readsNull htonl pMatchAddr ifa.
Proof.
  induction l as [|ifa l IH]; intros k pList; [discriminate|].
  assert (Hskip : forall k' pList',
    osdNetIfConf.scanIfaddrs htonl calloc k' pMatchAddr l pList' = None ->
    exists ifa0, In ifa0 (ifa :: l) /\ Discover.readsNull htonl pMatchAddr ifa0).
  { intros k' pList' H. destruct (IH _ _ H) as [ifa0 [Hin Hr]].
    exists ifa0. split; [right; exact Hin | exact Hr]. }
  cbn [osdNetIfConf.scanIfaddrs].
  destruct (osdNetIfConf.ifa_addr ifa) as [addr|] eqn:Haddr; [|apply Hskip].
  destruct (Z.eqb_spec (osdNetIfConf.sa_family addr) osdNetIfConf.AF_INET)
    as [Hfam|_]; cbn [negb]; [|apply Hskip].
  destruct (osdNetIfConf.matches htonl pMatchAddr addr) eqn:Hm;
    cbn [negb]; [|apply Hskip].
  destruct (osdNetIfConf.flagSet (osdNetIfConf.ifa_flags ifa)
              osdNetIfConf.IFF_UP) eqn:Hup; cbn [negb]; [|apply Hskip].
  destruct (osdNetIfConf.flagSet (osdNetIfConf.ifa_flags ifa)
              osdNetIfConf.IFF_LOOPBACK) eqn:Hlo; [apply Hskip|].
  destruct (calloc k); cbn [negb]; [|discriminate].
  assert (Hbase : exists addr0,
             osdNetIfConf.ifa_addr ifa = Some addr0
             /\ osdNetIfConf.sa_family addr0 = osdNetIfConf.AF_INET
             /\ osdNetIfConf.matches htonl pMatchAddr addr0 = true)
    by (exists addr; auto).
  destruct (osdNetIfConf.flagSet (osdNetIfConf.ifa_flags ifa)
              osdNetIfConf.IFF_BROADCAST) eqn:Hbc.
  - destruct (osdNetIfConf.ifa_broadaddr ifa) as [baddr|] eqn:Hb.
    + destruct ((osdNetIfConf.sa_family baddr =? osdNetIfConf.AF_INET)%Z
                && negb (osdNetIfConf.s_addr baddr =? osdNetIfConf.INADDR_ANY)%Z);
        apply Hskip.
    + intros _. exists ifa. split; [left; reflexivity|].
      unfold Discover.readsNull.
      split; [exact Hbase|]. split; [exact Hup|]. split; [exact Hlo|].
      left. split; [exact Hbc | exact Hb].
  - destruct (osdNetIfConf.flagSet (osdNetIfConf.ifa_flags ifa)
                osdNetIfConf.IFF_POINTOPOINT) eqn:Hpp; [|apply Hskip].
    destruct (osdNetIfConf.ifa_dstaddr ifa) as [dst|] eqn:Hd; [apply Hskip|].
    intros _. exists ifa. split; [left; reflexivity|].
    unfold Discover.readsNull.
    split; [exact Hbase|]. split; [exact Hup|]. split; [exact Hlo|].
    right. repeat split; auto.
Qed.

Lemma readsNull_unsound (pMatchAddr : osdNetIfConf.osiSockAddr)
    (ifa : osdNetIfConf.ifaddrs) :
  Discover.readsNull htonl pMatchAddr ifa -> ~ Discover.sound ifa.
Proof.
  intros [_ [_ [_ [[Hbc Hb]|[Hbc [Hpp Hd]]]]]] [S1 S2].
  - exact (S1 Hbc Hb).
  - exact (S2 Hbc Hpp Hd).
Qed.

(** X12.  [osiSockDiscoverBroadcastAddresses] only appends.  Whenever it
    returns, the list it leaves is the caller's list followed by the
    addresses added: at most the one loopback address when the match
    address is the loopback address, at most one address per interface
    reported otherwise.  It fails to return only when [getifaddrs] reports
    an interface that the loop takes (internet address passing the match,
    up, not loopback) and whose flags select an address that is a null
    pointer; so it returns when every interface that supports broadcast has
    a broadcast address and every point to point interface without
    broadcast has a destination address. *)
Theorem broadcast_discovery_only_appends (calloc : nat -> bool)
    (getifaddrs_result : Z) (ifaddr : list osdNetIfConf.ifaddrs)
    (pList : list osdNetIfConf.osiSockAddr)
    (pMatchAddr : osdNetIfConf.osiSockAddr) :
  (forall handedBack log,
      osdNetIfConf.osiSockDiscoverBroadcastAddresses htonl htons calloc
        getifaddrs_result ifaddr pList pMatchAddr
      = Some (handedBack, log) ->
      exists added,
        handedBack = pList ++ added
        /\ (if (osdNetIfConf.sa_family pMatchAddr =? osdNetIfConf.AF_INET)%Z
               && (osdNetIfConf.s_addr pMatchAddr
                   =? htonl osdNetIfConf.INADDR_LOOPBACK)%Z
            then added = []
                 \/ added = [ {| osdNetIfConf.sa_family := osdNetIfConf.AF_INET;
                                 osdNetIfConf.sin_port := htons 0;
                                 osdNetIfConf.s_addr :=
                                   htonl osdNetIfConf.INADDR_LOOPBACK |} ]
            else length added <= length ifaddr))
  /\ (osdNetIfConf.osiSockDiscoverBroadcastAddresses htonl htons calloc
        getifaddrs_result ifaddr pList pMatchAddr
      = None ->
      exists ifa, In ifa ifaddr /\ Discover.readsNull htonl pMatchAddr ifa)
  /\ (Forall Discover.sound ifaddr ->
      osdNetIfConf.osiSockDiscoverBroadcastAddresses htonl htons calloc
        getifaddrs_result ifaddr pList pMatchAddr
      <> None).
Proof.
  assert (Hcrash :
    osdNetIfConf.osiSockDiscoverBroadcastAddresses htonl htons calloc
      getifaddrs_result ifaddr pList pMatchAddr
    = None ->
    exists ifa, In ifa ifaddr /\ Discover.readsNull htonl pMatchAddr ifa).
  { unfold osdNetIfConf.osiSockDiscoverBroadcastAddresses.
    destruct ((osdNetIfConf.sa_family pMatchAddr =? osdNetIfConf.AF_INET)%Z
              && (osdNetIfConf.s_addr pMatchAddr
                  =? htonl osdNetIfConf.INADDR_LOOPBACK)%Z).
    - destruct (negb (calloc 0)); discriminate.
    - destruct (negb (getifaddrs_result =? 0)%Z); [discriminate|].
      apply scanIfaddrs_crashes. }
  split; [|split; [exact Hcrash|]].
  - intros handedBack log.
    unfold osdNetIfConf.osiSockDiscoverBroadcastAddresses.
    destruct ((osdNetIfConf.sa_family pMatchAddr =? osdNetIfConf.AF_INET)%Z
              && (osdNetIfConf.s_addr pMatchAddr
                  =? htonl osdNetIfConf.INADDR_LOOPBACK)%Z).
    + destruct (calloc 0); cbn [negb]; intros H; inversion H; subst.
      * eexists. split; [reflexivity | right; reflexivity].
      * exists []. rewrite app_nil_r. split; [reflexivity | left; reflexivity].
    + destruct (getifaddrs_result =? 0)%Z; cbn [negb]; intros H.
      * destruct (scanIfaddrs_returns calloc pMatchAddr ifaddr _ _ _ _ H)
          as [added [H1 H2]].
        exists added. split; [exact H1|].
        apply (taken_length pMatchAddr ifaddr added H2).
      * inversion H; subst. exists []. rewrite app_nil_r.
        split; [reflexivity | cbn [length]; lia].
  - intros Hsound Hnone. destruct (Hcrash Hnone) as [ifa [Hin Hr]].
    apply (readsNull_unsound pMatchAddr ifa Hr).
    rewrite Forall_forall in Hsound. apply Hsound. exact Hin.
Qed.

(** X13.  Unless the match address is the loopback address, the addresses
    that [osiSockDiscoverBroadcastAddresses] has added when it returns are
    taken from the interfaces reported by [getifaddrs], in their order and
    at most one from each: from an interface that has an internet address
    passing the match, is up and is not the loopback interface, the
    broadcast address when the interface supports broadcast (an internet
    address other than [INADDR_ANY]), or the destination address when it
    does not and is point to point. *)
Theorem broadcast_discovery_provenance (calloc : nat -> bool)
    (getifaddrs_result : Z) (ifaddr : list osdNetIfConf.ifaddrs)
    (pList handedBack : list osdNetIfConf.osiSockAddr) (log : list string)
    (pMatchAddr : osdNetIfConf.osiSockAddr) :
  (osdNetIfConf.sa_family pMatchAddr <> osdNetIfConf.AF_INET
   \/ osdNetIfConf.s_addr pMatchAddr <> htonl osdNetIfConf.INADDR_LOOPBACK) ->
  osdNetIfConf.osiSockDiscoverBroadcastAddresses htonl htons calloc
    getifaddrs_result ifaddr pList pMatchAddr
  = Some (handedBack, log) ->
  exists added,
    handedBack = pList ++ added
    /\ Discover.taken htonl pMatchAddr ifaddr added
    /\ Forall (fun a => exists ifa,
                   In ifa ifaddr /\ Discover.yields htonl pMatchAddr ifa a)
         added.
Proof.
  intros Hmatch. unfold osdNetIfConf.osiSockDiscoverBroadcastAddresses.
  replace ((osdNetIfConf.sa_family pMatchAddr =? osdNetIfConf.AF_INET)%Z
           && (osdNetIfConf.s_addr pMatchAddr
               =? htonl osdNetIfConf.INADDR_LOOPBACK)%Z) with false.
  - destruct (getifaddrs_result =? 0)%Z; cbn [negb]; intros H.
    + destruct (scanIfaddrs_returns calloc pMatchAddr ifaddr _ _ _ _ H)
        as [added [H1 H2]].
      exists added. split; [exact H1|]. split; [exact H2|].
      apply taken_from. exact H2.
    + inversion H; subst. exists []. rewrite app_nil_r.
      split; [reflexivity|]. split; [apply taken_none | constructor].
  - symmetry. apply andb_false_iff.
    destruct Hmatch as [Hm|Hm]; [left | right]; apply Z.eqb_neq; exact Hm.
Qed.

Lemma scanIfaddrs_other_family (calloc : nat -> bool)
    (pMatchAddr : osdNetIfConf.osiSockAddr) (l : list osdNetIfConf.ifaddrs) :
  osdNetIfConf.sa_family pMatchAddr <> osdNetIfConf.AF_UNSPEC ->
  osdNetIfConf.sa_family pMatchAddr <> osdNetIfConf.AF_INET ->
  forall (k : nat) (pList : list osdNetIfConf.osiSockAddr),
    osdNetIfConf.scanIfaddrs htonl calloc k pMatchAddr l pList
    = Some (pList, []).
Proof.
  intros Hu Hi. induction l as [|ifa l IH]; intros k pList; [reflexivity|].
  cbn [osdNetIfConf.scanIfaddrs].
  destruct (osdNetIfConf.ifa_addr ifa) as [addr|]; [|apply IH].
  destruct (negb (osdNetIfConf.sa_family addr =? osdNetIfConf.AF_INET)%Z);
    [apply IH|].
  replace (osdNetIfConf.matches htonl pMatchAddr addr) with false;
    [apply IH|].
  symmetry. unfold osdNetIfConf.matches.
  destruct (Z.eqb_spec (osdNetIfConf.sa_family pMatchAddr)
              osdNetIfConf.AF_UNSPEC); [contradiction|].
  destruct (Z.eqb_spec (osdNetIfConf.sa_family pMatchAddr)
              osdNetIfConf.AF_INET); [contradiction|].
  reflexivity.
Qed.

(** X14.  With a match address whose family is neither unspecified nor
    internet, and [getifaddrs] succeeding,
    [osiSockDiscoverBroadcastAddresses] returns, leaves the caller's list
    as it was and logs nothing, whatever interfaces are reported and
    whether or not memory is available. *)
Theorem broadcast_discovery_other_family (calloc : nat -> bool)
    (ifaddr : list osdNetIfConf.ifaddrs)
    (pList : list osdNetIfConf.osiSockAddr)
    (pMatchAddr : osdNetIfConf.osiSockAddr) :
  osdNetIfConf.sa_family pMatchAddr <> osdNetIfConf.AF_UNSPEC ->
  osdNetIfConf.sa_family pMatchAddr <> osdNetIfConf.AF_INET ->
  osdNetIfConf.osiSockDiscoverBroadcastAddresses htonl htons calloc 0 ifaddr
    pList pMatchAddr
  = Some (pList, []).
Proof.
  intros Hu Hi. unfold osdNetIfConf.osiSockDiscoverBroadcastAddresses.
  destruct (Z.eqb_spec (osdNetIfConf.sa_family pMatchAddr) osdNetIfConf.AF_INET);
    [contradiction|].
  cbn [andb negb Z.eqb].
  apply scanIfaddrs_other_family; assumption.
Qed.

(** A run in which every allocation succeeds and that returns: any other
    run on the same interfaces returns too, with an initial part of its
    list. *)
Lemma scanIfaddrs_prefix (calloc : nat -> bool)
    (pMatchAddr : osdNetIfConf.osiSockAddr) (l : list osdNetIfConf.ifaddrs) :
  forall (k k' : nat) (pList full : list osdNetIfConf.osiSockAddr) logFull,
    osdNetIfConf.scanIfaddrs htonl (fun _ => true) k pMatchAddr l pList
    = Some (full, logFull) ->
    exists part logPart missing,
      osdNetIfConf.scanIfaddrs htonl calloc k' pMatchAddr l pList
      = Some (part, logPart)
      /\ full = part ++ missing.
Proof.
  induction l as [|ifa l IH]; intros k k' pList full logFull Hfull.
  - cbn in Hfull. inversion Hfull; subst.
    exists full, [], []. rewrite app_nil_r. split; reflexivity.
  - destruct (scanIfaddrs_returns (fun _ => true) pMatchAddr (ifa :: l)
                k pList full logFull Hfull) as [added [Hadded _]].
    revert Hfull. cbn [osdNetIfConf.scanIfaddrs negb].
    destruct (osdNetIfConf.ifa_addr ifa) as [addr|]; [|apply IH].
    destruct (negb (osdNetIfConf.sa_family addr =? osdNetIfConf.AF_INET)%Z);
      [apply IH|].
    destruct (negb (osdNetIfConf.matches htonl pMatchAddr addr)); [apply IH|].
    destruct (negb (osdNetIfConf.flagSet (osdNetIfConf.ifa_flags ifa)
                      osdNetIfConf.IFF_UP)); [apply IH|].
    destruct (osdNetIfConf.flagSet (osdNetIfConf.ifa_flags ifa)
                osdNetIfConf.IFF_LOOPBACK); [apply IH|].
    destruct (calloc k'); cbn [negb].
    2:{ intros _. exists pList. eexists. exists added.
        split; [reflexivity | exact Hadded]. }
    destruct (osdNetIfConf.flagSet (osdNetIfConf.ifa_flags ifa)
                osdNetIfConf.IFF_BROADCAST).
    + destruct (osdNetIfConf.ifa_broadaddr ifa) as [baddr|]; [|discriminate].
      destruct ((osdNetIfConf.sa_family baddr =? osdNetIfConf.AF_INET)%Z
                && negb (osdNetIfConf.s_addr baddr =? osdNetIfConf.INADDR_ANY)%Z);
        apply IH.
    + destruct (osdNetIfConf.flagSet (osdNetIfConf.ifa_flags ifa)
                  osdNetIfConf.IFF_POINTOPOINT); [|apply IH].
      destruct (osdNetIfConf.ifa_dstaddr ifa) as [dst|]; [|discriminate].
      apply IH.
Qed.

(** X15.  Running out of memory only cuts the discovery short: when the
    call in which every allocation succeeds returns, the call in which
    some allocation fails, on the same answers of [getifaddrs], returns
    too, and the list it leaves is an initial part of the other one; the
    addresses added before the failure stay in the caller's list. *)
Theorem broadcast_discovery_out_of_memory (calloc : nat -> bool)
    (getifaddrs_result : Z) (ifaddr : list osdNetIfConf.ifaddrs)
    (pList full : list osdNetIfConf.osiSockAddr) (logFull : list string)
    (pMatchAddr : osdNetIfConf.osiSockAddr) :
  osdNetIfConf.osiSockDiscoverBroadcastAddresses htonl htons (fun _ => true)
    getifaddrs_result ifaddr pList pMatchAddr
  = Some (full, logFull) ->
  exists part logPart missing,
    osdNetIfConf.osiSockDiscoverBroadcastAddresses htonl htons calloc
      getifaddrs_result ifaddr pList pMatchAddr
    = Some (part, logPart)
    /\ full = part ++ missing.
Proof.
  unfold osdNetIfConf.osiSockDiscoverBroadcastAddresses.
  destruct ((osdNetIfConf.sa_family pMatchAddr =? osdNetIfConf.AF_INET)%Z
            && (osdNetIfConf.s_addr pMatchAddr
                =? htonl osdNetIfConf.INADDR_LOOPBACK)%Z).
  - cbn [negb]. intros H. inversion H; subst.
    destruct (calloc 0); cbn [negb].
    + eexists. eexists. exists []. rewrite app_nil_r. split; reflexivity.
    + eexists. eexists. eexists. split; reflexivity.
  - destruct (getifaddrs_result =? 0)%Z; cbn [negb].
    + apply scanIfaddrs_prefix.
    + intros H. inversion H; subst.
      eexists. eexists. exists []. rewrite app_nil_r. split; reflexivity.
Qed.

End Broadcast.

(** The null pointer is reachable: a point to point interface that is up
    and whose destination address is null makes the discovery read through
    the null pointer, once its memory is allocated. *)
Lemma broadcast_discovery_null_destination :
  osdNetIfConf.osiSockDiscoverBroadcastAddresses (fun x => x) (fun x => x)
    (fun _ => true) 0 [Discover.ppp0_ifa] [] Spec.anyInterface
  = None
  /\ Discover.readsNull (fun x => x) Spec.anyInterface Discover.ppp0_ifa
  /\ osdNetIfConf.osiSockDiscoverBroadcastAddresses (fun x => x) (fun x => x)
       (fun _ => false) 0 [Discover.ppp0_ifa] [] Spec.anyInterface
     = Some ([], ["osiSockDiscoverBroadcastAddresses(): no memory available for configuration"%string]).
Proof.
  split; [reflexivity|]. split; [|reflexivity].
  unfold Discover.readsNull.
  split; [exists Discover.eth0_addr; repeat split; reflexivity|].
  split; [reflexivity|]. split; [reflexivity|].
  right. repeat split; reflexivity.
Qed.

Lemma broadcast_discovery_provenance_witness :
  (osdNetIfConf.sa_family Spec.anyInterface <> osdNetIfConf.AF_INET
   \/ osdNetIfConf.s_addr Spec.anyInterface
      <> (fun x : Z => x) osdNetIfConf.INADDR_LOOPBACK)
  /\ osdNetIfConf.osiSockDiscoverBroadcastAddresses (fun x => x)
       (fun x => x) (fun _ => true) 0 [Discover.eth0_ifa] []
       Spec.anyInterface
     = Some ([Discover.eth0_bcast], [])
  /\ exists added,
       [Discover.eth0_bcast] = [] ++ added
       /\ Discover.taken (fun x => x) Spec.anyInterface [Discover.eth0_ifa]
            added
       /\ Forall (fun a => exists ifa,
                      In ifa [Discover.eth0_ifa]
                      /\ Discover.yields (fun x => x) Spec.anyInterface ifa a)
            added.
Proof.
  assert (H : osdNetIfConf.sa_family Spec.anyInterface <> osdNetIfConf.AF_INET
              \/ osdNetIfConf.s_addr Spec.anyInterface
                 <> (fun x : Z => x) osdNetIfConf.INADDR_LOOPBACK)
    by (right; discriminate).
  split; [exact H|]. split; [reflexivity|].
  exact (broadcast_discovery_provenance (fun x => x) (fun x => x)
           (fun _ => true) 0 [Discover.eth0_ifa] [] [Discover.eth0_bcast] []
           Spec.anyInterface H eq_refl).
Defined.

Lemma broadcast_discovery_other_family_witness :
  osdNetIfConf.sa_family Discover.otherFamily <> osdNetIfConf.AF_UNSPEC
  /\ osdNetIfConf.sa_family Discover.otherFamily <> osdNetIfConf.AF_INET
  /\ osdNetIfConf.osiSockDiscoverBroadcastAddresses (fun x => x) (fun x => x)
       (fun _ => false) 0 [Discover.eth0_ifa] [Discover.eth0_addr]
       Discover.otherFamily
     = Some ([Discover.eth0_addr], []).
Proof.
  assert (Hu : osdNetIfConf.sa_family Discover.otherFamily
               <> osdNetIfConf.AF_UNSPEC) by discriminate.
  assert (Hi : osdNetIfConf.sa_family Discover.otherFamily
               <> osdNetIfConf.AF_INET) by discriminate.
  split; [exact Hu|]. split; [exact Hi|].
  exact (broadcast_discovery_other_family (fun x => x) (fun x => x)
           (fun _ => false) [Discover.eth0_ifa] [Discover.eth0_addr]
           Discover.otherFamily Hu Hi).
Defined.

Lemma broadcast_discovery_out_of_memory_witness :
  osdNetIfConf.osiSockDiscoverBroadcastAddresses (fun x => x) (fun x => x)
    (fun _ => true) 0 [Discover.eth0_ifa; Discover.eth0_ifa]
    [Discover.eth0_addr] Spec.anyInterface
  = Some ([Discover.eth0_addr; Discover.eth0_bcast; Discover.eth0_bcast], [])
  /\ osdNetIfConf.osiSockDiscoverBroadcastAddresses (fun x => x) (fun x => x)
       (fun k => Nat.eqb k 0) 0 [Discover.eth0_ifa; Discover.eth0_ifa]
       [Discover.eth0_addr] Spec.anyInterface
     = Some ([Discover.eth0_addr; Discover.eth0_bcast],
             ["osiSockDiscoverBroadcastAddresses(): no memory available for configuration"%string])
  /\ exists part logPart missing,
       osdNetIfConf.osiSockDiscoverBroadcastAddresses (fun x => x)
         (fun x => x) (fun k => Nat.eqb k 0) 0
         [Discover.eth0_ifa; Discover.eth0_ifa] [Discover.eth0_addr]
         Spec.anyInterface
       = Some (part, logPart)
       /\ [Discover.eth0_addr; Discover.eth0_bcast; Discover.eth0_bcast]
          = part ++ missing.
Proof.
  split; [reflexivity|]. split; [reflexivity|].
  exact (broadcast_discovery_out_of_memory (fun x => x) (fun x => x)
           (fun k => Nat.eqb k 0) 0 [Discover.eth0_ifa; Discover.eth0_ifa]
           [Discover.eth0_addr]
           [Discover.eth0_addr; Discover.eth0_bcast; Discover.eth0_bcast] []
           Spec.anyInterface eq_refl).
Defined.
